(** * agent-pistols: the duel commitment protocol of the Pistols at Dawn agent

    A shallow embedding of the action handlers of [example-pistols.ts]
    (commit_moves, reveal_moves, accept_challenge, create_challenge,
    fetch_challenges, the duel map of analyze_duel_history) and of
    [normalizeStarknetAddress], with the properties of the protocol that the
    handlers do and do not have.

    The handlers are [async] functions over one shared memory object
    ([ctx.agentMemory]).  They are embedded as programs of a small free monad
    whose nodes are the effects of the source: awaiting a chain write, awaiting
    a GraphQL query, sleeping, reading the clock or the random source, reading
    the shared memory and mutating one of its fields.  An interpreter runs a
    program against a world (the answers of the external collaborators) and
    returns the ordered trace of effects, the final memory and the value. *)

From Stdlib Require Import ZArith List Strings.Ascii Strings.String HexString.
From Stdlib Require Import Sorting.Sorted Sorting.Permutation.
From stdpp Require Import base gmap strings list pretty sorting.

Local Open Scope Z_scope.

(** ** Data model ([types.ts] and the interfaces of the agent file) *)

(** [constants.ChallengeState] of the SDK: the eight keys of the
    [statePriority] table of fetch_challenges. *)
Inductive ChallengeState :=
| Null | Awaiting | Withdrawn | Refused | Expired | InProgress | Resolved | Draw.

#[global] Instance ChallengeState_eq_dec : EqDecision ChallengeState.
Proof. solve_decision. Defined.

Record Timestamps := {
  ts_start : Z;
  ts_end : option Z
}.

(** [ChallengeData]: a node of the GraphQL answer.  [duel_id] is an option
    because create_challenge stores [events?.[0]?.data?.[0]], which is
    [undefined] (here [None]) when the transaction carries no event data. *)
Record ChallengeData := {
  duel_id : option string;
  table_id : string;
  premise : string;
  quote : string;
  address_a : string;
  address_b : string;
  duelist_id_a : string;
  duelist_id_b : string;
  state : ChallengeState;
  winner : option string;
  timestamps : Timestamps
}.

(** [Challenge extends ChallengeData] with [duelist_id]; the object spread
    [{...node, duelist_id: d}] is [with_duelist_id node d]. *)
Record Challenge := {
  node : ChallengeData;
  duelist_id : string
}.

Definition with_duelist_id (c : ChallengeData) (d : string) : Challenge :=
  {| node := c; duelist_id := d |}.

(** An entry of [PistolsState.committedMoves]. *)
Record CommittedMoves := {
  salt : Z;
  moves : list Z;
  hash : Z
}.

(** ** The secret store: a plain object used as a map

    [committedMoves] starts as the object literal [{}] and is read with
    [store[duelId]], written with [store[duelId] = entry] and cleared with
    [delete store[duelId]], for any string [duelId].  Such an object has its
    own properties and a prototype: [Object.prototype] at first, and the
    entry itself once an assignment to the key [__proto__] has replaced it. *)

(** What [store[key]] can evaluate to. *)
Inductive JsValue :=
| JsUndefined
| JsEntry (e : CommittedMoves)
| JsBigInt (n : Z)
| JsArray (l : list Z)
| JsBuiltin (name : string).

(** The data properties of [Object.prototype]: all are functions, writable
    and configurable.  Its accessor [__proto__] is treated apart. *)
Definition Object_prototype_keys : list string :=
  ["constructor"; "__defineGetter__"; "__defineSetter__"; "hasOwnProperty";
   "__lookupGetter__"; "__lookupSetter__"; "isPrototypeOf";
   "propertyIsEnumerable"; "toString"; "valueOf"; "toLocaleString"].

(** [own]: the own properties; [proto]: [None] while the prototype is
    [Object.prototype], [Some e] once it is the entry [e] (whose own
    prototype is [Object.prototype]). *)
Record SecretStore := {
  own : gmap string CommittedMoves;
  proto : option CommittedMoves
}.

Definition from_Object_prototype (key : string) : JsValue :=
  if bool_decide (key ∈ Object_prototype_keys) then JsBuiltin key
  else JsUndefined.

(** What a key finds along the prototype chain.  The getter of [__proto__]
    returns the prototype; an entry used as prototype lends its three
    fields. *)
Definition inherited (store : SecretStore) (key : string) : JsValue :=
  if bool_decide (key = "__proto__") then
    match proto store with
    | Some e => JsEntry e
    | None => JsBuiltin "__proto__"
    end
  else
    match proto store with
    | Some e =>
        if bool_decide (key = "salt") then JsBigInt (salt e)
        else if bool_decide (key = "moves") then JsArray (moves e)
        else if bool_decide (key = "hash") then JsBigInt (hash e)
        else from_Object_prototype key
    | None => from_Object_prototype key
    end.

(** [store[key]] *)
Definition js_get (store : SecretStore) (key : string) : JsValue :=
  match own store !! key with
  | Some e => JsEntry e
  | None => inherited store key
  end.

(** [store[key] = entry]: an own property is updated or created, except for
    the key [__proto__] without own property, whose inherited setter makes
    the entry the prototype of the store. *)
Definition js_set (key : string) (entry : CommittedMoves)
    (store : SecretStore) : SecretStore :=
  if bool_decide (key = "__proto__")
     && bool_decide (own store !! key = None)
  then {| own := own store; proto := Some entry |}
  else {| own := <[key := entry]> (own store); proto := proto store |}.

(** [delete store[key]]: removes the own property, if any. *)
Definition js_delete (key : string) (store : SecretStore) : SecretStore :=
  {| own := delete key (own store); proto := proto store |}.

(** [!value] is [negb (js_truthy value)]: [undefined] and [0n] are falsy. *)
Definition js_truthy (v : JsValue) : bool :=
  match v with
  | JsUndefined => false
  | JsBigInt n => negb (n =? 0)
  | JsEntry _ | JsArray _ | JsBuiltin _ => true
  end.

(** [value.salt] and [value.moves]: [None] is [undefined], which is what
    every value but an entry gives. *)
Definition js_salt (v : JsValue) : option Z :=
  match v with
  | JsEntry e => Some (salt e)
  | _ => None
  end.

Definition js_moves (v : JsValue) : option (list Z) :=
  match v with
  | JsEntry e => Some (moves e)
  | _ => None
  end.

(** The store read as a map: [store !! key] is the entry that [store[key]]
    evaluates to, if it is one; [<[key := e]> store], [delete key store] and
    [∅] are the assignment, the [delete] and the literal [{}]. *)
#[global] Instance SecretStore_lookup
  : Lookup string CommittedMoves SecretStore :=
  fun key store =>
    match js_get store key with
    | JsEntry e => Some e
    | _ => None
    end.

#[global] Instance SecretStore_insert
  : Insert string CommittedMoves SecretStore := js_set.

#[global] Instance SecretStore_delete : Delete string SecretStore := js_delete.

#[global] Instance SecretStore_empty : Empty SecretStore :=
  {| own := ∅; proto := None |}.

(** The fields of [PistolsState] that the embedded handlers read or write.
    [activeChallenges] is declared [ChallengeData[]] but holds the [Challenge]
    objects built by the handlers; [challengeState] starts as the empty string
    ([None]); [activeChallenge] receives a [duel_id]. *)
Record PistolsState := {
  playerAddress : string;
  duelistId : string;
  activeChallenge : option string;
  activeChallenges : list Challenge;
  challengeState : option ChallengeState;
  committedMoves : SecretStore
}.

(** ** The external collaborators *)

(** An element of a [calldata] array. *)
Inductive CallArg :=
| ArgStr (s : string)
| ArgNum (n : Z)
| ArgNums (l : list Z)
| ArgUndefined.

Record WriteRequest := {
  contractAddress : string;
  entrypoint : string;
  calldata : list CallArg
}.

Record TxEvent := { data : option (list string) }.

(** The object a confirmed [starknetChain.write] resolves to. *)
Record TxResponse := { events : option (list TxEvent) }.

Inductive WriteOutcome :=
| WriteRejected (error : string)
| WriteResolved (response : TxResponse).

(** [GraphQLResponse<ChallengesResponse>]: a field is [None] when
    [result.data?.addressXChallenges?.edges] is [undefined]. *)
Record ChallengesResponse := {
  addressAChallenges : option (list ChallengeData);
  addressBChallenges : option (list ChallengeData)
}.

Inductive QueryOutcome :=
| QueryRejected (error : string)
| QueryResolved (response : ChallengesResponse).

(** The answers of the outside world during one run of a handler.
    [rand n] is the value of [Math.floor(Math.random() * n)] (the rounding of
    the floating-point product is not modelled), [clock] is [Date.now()]. *)
Record World := {
  chain : WriteRequest -> WriteOutcome;
  api : string -> QueryOutcome;
  rand : Z -> Z;
  clock : Z
}.

(** ** Effects *)

(** One assignment to a field of the shared memory. *)
Inductive Mutation :=
| SetActiveChallenge (v : option string)
| SetDuelistId (v : string)
| SetChallengeState (v : ChallengeState)
| SetActiveChallenges (l : list Challenge)
| PushActiveChallenge (c : Challenge)
| StoreCommitted (duelId : string) (s : CommittedMoves)
| DeleteCommitted (duelId : string).

Definition apply_mutation (m : Mutation) (st : PistolsState) : PistolsState :=
  match m with
  | SetActiveChallenge v =>
      {| playerAddress := playerAddress st; duelistId := duelistId st;
         activeChallenge := v; activeChallenges := activeChallenges st;
         challengeState := challengeState st;
         committedMoves := committedMoves st |}
  | SetDuelistId v =>
      {| playerAddress := playerAddress st; duelistId := v;
         activeChallenge := activeChallenge st;
         activeChallenges := activeChallenges st;
         challengeState := challengeState st;
         committedMoves := committedMoves st |}
  | SetChallengeState v =>
      {| playerAddress := playerAddress st; duelistId := duelistId st;
         activeChallenge := activeChallenge st;
         activeChallenges := activeChallenges st;
         challengeState := Some v;
         committedMoves := committedMoves st |}
  | SetActiveChallenges l =>
      {| playerAddress := playerAddress st; duelistId := duelistId st;
         activeChallenge := activeChallenge st;
         activeChallenges := l;
         challengeState := challengeState st;
         committedMoves := committedMoves st |}
  | PushActiveChallenge c =>
      {| playerAddress := playerAddress st; duelistId := duelistId st;
         activeChallenge := activeChallenge st;
         activeChallenges := activeChallenges st ++ [c];
         challengeState := challengeState st;
         committedMoves := committedMoves st |}
  | StoreCommitted duelId s =>
      {| playerAddress := playerAddress st; duelistId := duelistId st;
         activeChallenge := activeChallenge st;
         activeChallenges := activeChallenges st;
         challengeState := challengeState st;
         committedMoves := <[duelId := s]> (committedMoves st) |}
  | DeleteCommitted duelId =>
      {| playerAddress := playerAddress st; duelistId := duelistId st;
         activeChallenge := activeChallenge st;
         activeChallenges := activeChallenges st;
         challengeState := challengeState st;
         committedMoves := delete duelId (committedMoves st) |}
  end.

(** What an observer of a run sees, in order. *)
Inductive Event :=
| EvWrite (req : WriteRequest)
| EvQuery (playerAddress : string)
| EvSleep (ms : Z)
| EvMutate (m : Mutation).

(** Programs: the free monad of the effects, with [Throw] for a JS exception
    (carried as its message, which is all the [catch] blocks read). *)
Inductive Prog (A : Type) : Type :=
| Ret (a : A)
| Throw (error : string)
| AwaitWrite (req : WriteRequest) (k : WriteOutcome -> Prog A)
| AwaitQuery (playerAddress : string) (k : QueryOutcome -> Prog A)
| AwaitSleep (ms : Z) (k : Prog A)
| MathRandom (n : Z) (k : Z -> Prog A)
| DateNow (k : Z -> Prog A)
| ReadMemory (k : PistolsState -> Prog A)
| Mutate (m : Mutation) (k : Prog A).

Arguments Ret {A} a.
Arguments Throw {A} error.
Arguments AwaitWrite {A} req k.
Arguments AwaitQuery {A} playerAddress k.
Arguments AwaitSleep {A} ms k.
Arguments MathRandom {A} n k.
Arguments DateNow {A} k.
Arguments ReadMemory {A} k.
Arguments Mutate {A} m k.

Fixpoint bind {A B : Type} (p : Prog A) (f : A -> Prog B) : Prog B :=
  match p with
  | Ret a => f a
  | Throw e => Throw e
  | AwaitWrite req k => AwaitWrite req (fun o => bind (k o) f)
  | AwaitQuery q k => AwaitQuery q (fun o => bind (k o) f)
  | AwaitSleep ms k => AwaitSleep ms (bind k f)
  | MathRandom n k => MathRandom n (fun r => bind (k r) f)
  | DateNow k => DateNow (fun t => bind (k t) f)
  | ReadMemory k => ReadMemory (fun st => bind (k st) f)
  | Mutate m k => Mutate m (bind k f)
  end.

(** [try { p } catch (error) { h error }] *)
Fixpoint try_catch {A : Type} (p : Prog A) (h : string -> Prog A) : Prog A :=
  match p with
  | Ret a => Ret a
  | Throw e => h e
  | AwaitWrite req k => AwaitWrite req (fun o => try_catch (k o) h)
  | AwaitQuery q k => AwaitQuery q (fun o => try_catch (k o) h)
  | AwaitSleep ms k => AwaitSleep ms (try_catch k h)
  | MathRandom n k => MathRandom n (fun r => try_catch (k r) h)
  | DateNow k => DateNow (fun t => try_catch (k t) h)
  | ReadMemory k => ReadMemory (fun st => try_catch (k st) h)
  | Mutate m k => Mutate m (try_catch k h)
  end.

Declare Scope prog_scope.
Delimit Scope prog_scope with prog.
Notation "x <- p ;; q" := (bind p (fun x => q))
  (at level 100, p at next level, right associativity) : prog_scope.
Notation "p ;; q" := (bind p (fun _ => q))
  (at level 100, right associativity) : prog_scope.
Local Open Scope prog_scope.

(** [await starknetChain.write(req)]: a rejected promise is a throw. *)
Definition starknetChain_write (req : WriteRequest) : Prog TxResponse :=
  AwaitWrite req (fun o =>
    match o with
    | WriteRejected e => Throw e
    | WriteResolved r => Ret r
    end).

(** [await queryPistolsAPI<ChallengesResponse>(query)] *)
Definition queryPistolsAPI (playerAddress : string) : Prog ChallengesResponse :=
  AwaitQuery playerAddress (fun o =>
    match o with
    | QueryRejected e => Throw e
    | QueryResolved r => Ret r
    end).

(** [await new Promise(resolve => setTimeout(resolve, ms))] *)
Definition sleep (ms : Z) : Prog unit := AwaitSleep ms (Ret tt).

Definition read_memory : Prog PistolsState := ReadMemory Ret.
Definition mutate (m : Mutation) : Prog unit := Mutate m (Ret tt).
Definition math_random_floor (n : Z) : Prog Z := MathRandom n Ret.
Definition date_now : Prog Z := DateNow Ret.

(** The interpreter: the trace of effects in the order they happen, the
    memory at the end, and the value returned or the uncaught exception. *)
Fixpoint run {A : Type} (w : World) (p : Prog A) (st : PistolsState)
  : list Event * PistolsState * (string + A) :=
  match p with
  | Ret a => ([], st, inr a)
  | Throw e => ([], st, inl e)
  | AwaitWrite req k =>
      let '(tr, st', r) := run w (k (chain w req)) st in
      (EvWrite req :: tr, st', r)
  | AwaitQuery q k =>
      let '(tr, st', r) := run w (k (api w q)) st in
      (EvQuery q :: tr, st', r)
  | AwaitSleep ms k =>
      let '(tr, st', r) := run w k st in
      (EvSleep ms :: tr, st', r)
  | MathRandom n k => run w (k (rand w n)) st
  | DateNow k => run w (k (clock w)) st
  | ReadMemory k => run w (k st) st
  | Mutate m k =>
      let '(tr, st', r) := run w k (apply_mutation m st) in
      (EvMutate m :: tr, st', r)
  end.

Definition trace_of {A : Type} (r : list Event * PistolsState * (string + A))
  : list Event := r.1.1.
Definition memory_of {A : Type} (r : list Event * PistolsState * (string + A))
  : PistolsState := r.1.2.
Definition value_of {A : Type} (r : list Event * PistolsState * (string + A))
  : string + A := r.2.

(** The uniform result shape of every action: [{success: true, message, ...}]
    or [{success: false, error, message}]. *)
Inductive ActionResult (P : Type) : Type :=
| Success (message : string) (payload : P)
| Failure (error : string) (message : string).

Arguments Success {P} message payload.
Arguments Failure {P} error message.

Definition is_write (e : Event) : bool :=
  match e with EvWrite _ => true | _ => false end.

(** No chain write was submitted during the run. *)
Definition writes_of (tr : list Event) : list Event := List.filter is_write tr.
Definition no_write (tr : list Event) : Prop := writes_of tr = [].

(** ** normalizeStarknetAddress *)

(** [toLowerCase] on the ASCII range (addresses are hexadecimal text). *)
Definition lower_ascii (c : ascii) : ascii :=
  let n := N_of_ascii c in
  if ((65 <=? n) && (n <=? 90))%N then ascii_of_N (n + 32) else c.

Fixpoint toLowerCase (s : string) : string :=
  match s with
  | EmptyString => EmptyString
  | String c s' => String (lower_ascii c) (toLowerCase s')
  end.

(** [s.replace(/^0+/, '')] *)
Fixpoint strip_leading_zeros (s : string) : string :=
  match s with
  | String "0" s' => strip_leading_zeros s'
  | _ => s
  end.

(** [address.startsWith('0x') ? address.slice(2) : address] *)
Definition strip_0x (address : string) : string :=
  match address with
  | String "0" (String "x" rest) => rest
  | _ => address
  end.

Definition normalizeStarknetAddress (address : string) : string :=
  match address with
  | EmptyString => address
  | _ =>
      let stripped := strip_0x address in
      let normalized := strip_leading_zeros stripped in
      "0x" +:+ toLowerCase normalized
  end.

(** ** The SDK and the deployment, taken as parameters

    [make_moves_hash], [bigintToHex], [stringToFelt], [getPremiseValue] and
    the table name come from the pistols SDK, the contract addresses from the
    Dojo manifest: none of them is code of this repository.
    [getPremiseValue p] stands for [constants.getPremiseValue(p)?.toString()];
    [bigintToHex_undefined] is what [bigintToHex(undefined)] does: it throws
    ([inl], with the message) or returns a string ([inr]). *)
Record Sdk := {
  make_moves_hash : Z -> list Z -> Z;
  bigintToHex : Z -> string;
  bigintToHex_undefined : string + string;
  stringToFelt : string -> Z;
  getPremiseValue : string -> option string;
  TABLES_PRACTICE : string;
  game_contract_address : string;
  duel_contract_address : string
}.

(** [response.events && response.events.length > 0] *)
Definition has_events (r : TxResponse) : bool :=
  match events r with
  | Some (_ :: _) => true
  | _ => false
  end.

(** The arguments ([call.data]) and the success payloads of the actions. *)
Module CommitCall.
Record t := {
    playerAddress : string;
    duelistId : string;
    duelId : string;
    moves : list Z
  }.
End CommitCall.

Module CommitPayload.
Record t := {
    salt : string;
    moves : list Z;
    hash : string;
    transaction : TxResponse
  }.
End CommitPayload.

Module RevealCall.
Record t := {
    playerAddress : string;
    duelistId : string;
    duelId : string
  }.
End RevealCall.

Module RevealPayload.
Record t := {
    salt : string;
    moves : option (list Z);
    transaction : TxResponse
  }.
End RevealPayload.

Module AcceptCall.
Record t := {
    playerAddress : string;
    duelistId : string;
    challengeId : string
  }.
End AcceptCall.

Module AcceptPayload.
Record t := { transaction : TxResponse }.
End AcceptPayload.

(** An array of moves, or [undefined], as an element of [calldata]. *)
Definition moves_arg (m : option (list Z)) : CallArg :=
  match m with
  | Some l => ArgNums l
  | None => ArgUndefined
  end.

Section Handlers.
Context (sdk : Sdk).

  (** *** commit_moves *)
Definition commit_moves (call : CommitCall.t)
    : Prog (ActionResult CommitPayload.t) :=
    try_catch
      (let duelistId := CommitCall.duelistId call in
       let duelId := CommitCall.duelId call in
       let moves := CommitCall.moves call in
       saltValue <- math_random_floor 0xFFFFFFFF ;;
       let saltBigInt := saltValue in
       let saltHex := bigintToHex sdk saltBigInt in
       let hashResult := make_moves_hash sdk saltBigInt moves in
       let hashResultHex := bigintToHex sdk hashResult in
       commitResponse <- starknetChain_write
         {| contractAddress := game_contract_address sdk;
            entrypoint := "commit_moves";
            calldata := [ArgStr duelistId; ArgStr duelId; ArgStr hashResultHex] |} ;;
       (* Only store the moves if the commit was successful *)
       (if has_events commitResponse then
          mutate (SetActiveChallenge (Some duelId)) ;;
          mutate (SetDuelistId duelistId) ;;
          mutate (StoreCommitted duelId
                    {| salt := saltBigInt; moves := moves; hash := hashResult |})
        else
          Throw "Commit transaction did not emit events") ;;
       sleep 3000 ;;
       Ret (Success "Moves successfully committed"
              {| CommitPayload.salt := saltHex;
                 CommitPayload.moves := moves;
                 CommitPayload.hash := hashResultHex;
                 CommitPayload.transaction := commitResponse |}))
      (fun error => Ret (Failure error "Failed to commit moves")).

  (** *** reveal_moves *)

  (** [bigintToHex(v)] for a [v] that may be [undefined]. *)
Definition bigintToHex_of (v : option Z) : Prog string :=
    match v with
    | Some n => Ret (bigintToHex sdk n)
    | None =>
        match bigintToHex_undefined sdk with
        | inl error => Throw error
        | inr hex => Ret hex
        end
    end.

  (** [bigintToHex(storedMoves.salt)] is written three times in the source
      (for the log before the write, for the calldata and for the result):
      it is evaluated here once, where the log evaluates it first. *)
Definition reveal_moves (call : RevealCall.t)
    : Prog (ActionResult RevealPayload.t) :=
    try_catch
      (let duelistId := RevealCall.duelistId call in
       let duelId := RevealCall.duelId call in
       state <- read_memory ;;
       let storedMoves := js_get (committedMoves state) duelId in
       (if negb (js_truthy storedMoves)
        then Throw "No committed moves found for this duel"
        else Ret tt) ;;
       saltHex <- bigintToHex_of (js_salt storedMoves) ;;
       let calldata :=
         [ArgStr duelistId; ArgStr duelId;
          ArgStr saltHex;
          moves_arg (js_moves storedMoves)] in
       revealResponse <- starknetChain_write
         {| contractAddress := game_contract_address sdk;
            entrypoint := "reveal_moves";
            calldata := calldata |} ;;
       (* Only clean up state if reveal was successful *)
       (if has_events revealResponse then
          mutate (DeleteCommitted duelId) ;;
          mutate (SetActiveChallenge (Some duelId)) ;;
          mutate (SetDuelistId duelistId)
        else
          Throw "Reveal transaction did not emit events") ;;
       sleep 3000 ;;
       Ret (Success "Moves successfully revealed"
              {| RevealPayload.salt := saltHex;
                 RevealPayload.moves := js_moves storedMoves;
                 RevealPayload.transaction := revealResponse |}))
      (fun error => Ret (Failure error "Failed to reveal moves")).

  (** *** accept_challenge *)

  (** [{...c, state: InProgress, duelist_id_b: duelistId}] *)
Definition accepted_by (duelistId : string) (c : Challenge) : Challenge :=
    {| node :=
         {| duel_id := duel_id (node c);
            table_id := table_id (node c);
            premise := premise (node c);
            quote := quote (node c);
            address_a := address_a (node c);
            address_b := address_b (node c);
            duelist_id_a := duelist_id_a (node c);
            duelist_id_b := duelistId;
            state := InProgress;
            winner := winner (node c);
            timestamps := timestamps (node c) |};
       duelist_id := duelist_id c |}.

Definition accept_challenge (call : AcceptCall.t)
    : Prog (ActionResult AcceptPayload.t) :=
    try_catch
      (let duelistId := AcceptCall.duelistId call in
       let challengeId := AcceptCall.challengeId call in
       acceptResponse <- starknetChain_write
         {| contractAddress := duel_contract_address sdk;
            entrypoint := "reply_duel";
            calldata := [ArgStr duelistId; ArgStr challengeId; ArgStr "1"] |} ;;
       sleep 3000 ;;
       mutate (SetActiveChallenge (Some challengeId)) ;;
       mutate (SetDuelistId duelistId) ;;
       mutate (SetChallengeState InProgress) ;;
       state <- read_memory ;;
       mutate (SetActiveChallenges
                 (map (fun c =>
                         if bool_decide (duel_id (node c) = Some challengeId)
                         then accepted_by duelistId c
                         else c)
                      (activeChallenges state))) ;;
       Ret (Success "Challenge successfully accepted"
              {| AcceptPayload.transaction := acceptResponse |}))
      (fun error => Ret (Failure error "Failed to accept challenge")).

End Handlers.

(** ** fetch_challenges *)

(** The [statePriority] table of the comparator. *)
Definition statePriority (s : ChallengeState) : Z :=
  match s with
  | InProgress => 0
  | Awaiting => 1
  | Resolved => 2
  | Draw => 3
  | Refused => 4
  | Withdrawn => 5
  | Expired => 6
  | Null => 7
  end.

(** [n || d] on numbers *)
Definition or_default (n d : Z) : Z := if n =? 0 then d else n.

(** The comparator passed to [challenges.sort]: negative when [a] goes first. *)
Definition compare_challenges (a b : Challenge) : Z :=
  let priorityDiff :=
    statePriority (state (node a)) - statePriority (state (node b)) in
  if negb (priorityDiff =? 0) then priorityDiff
  else or_default (ts_start (timestamps (node b))) 0
       - or_default (ts_start (timestamps (node a))) 0.

(** [Array.prototype.sort(cmp)] is a stable sort; for a consistent comparator
    its result is the one of stable insertion: an element goes before the
    first element it does not compare greater than. *)
Section ArraySort.
Context {A : Type} (cmp : A -> A -> Z).

Fixpoint insert_by (x : A) (l : list A) : list A :=
    match l with
    | [] => [x]
    | y :: l' => if cmp x y <=? 0 then x :: l else y :: insert_by x l'
    end.

Definition array_sort (l : list A) : list A := foldr insert_by [] l.
End ArraySort.

(** The predicate of [sortedChallenges.filter(...)]. *)
Definition is_active (c : Challenge) : bool :=
  bool_decide (state (node c) = InProgress)
  || bool_decide (state (node c) = Awaiting).

(** [{...challenge, duelist_id: challenge.duelist_id_a}] *)
Definition as_side_a (c : Challenge) : Challenge :=
  with_duelist_id (node c) (duelist_id_a (node c)).

(** [[...xs]] throws a TypeError when [xs] is [undefined]; the text of the
    message is the engine's. *)
Definition spread {A : Type} (xs : option (list A)) : Prog (list A) :=
  match xs with
  | Some l => Ret l
  | None => Throw "undefined is not iterable"
  end.

Module FetchCall.
Record t := { playerAddress : string }.
End FetchCall.

Module FetchPayload.
Record t := {
    challenges : list Challenge;
    activeChallenges : list Challenge
  }.
End FetchPayload.

Definition fetch_challenges (call : FetchCall.t)
  : Prog (ActionResult FetchPayload.t) :=
  try_catch
    (let playerAddress :=
       normalizeStarknetAddress (FetchCall.playerAddress call) in
     result <- queryPistolsAPI playerAddress ;;
     let challengesAsA :=
       map (fun n => with_duelist_id n (duelist_id_a n))
         <$> addressAChallenges result in
     let challengesAsB :=
       map (fun n => with_duelist_id n (duelist_id_b n))
         <$> addressBChallenges result in
     asA <- spread challengesAsA ;;
     asB <- spread challengesAsB ;;
     let challenges := asA ++ asB in
     let sortedChallenges := array_sort compare_challenges challenges in
     let activeChallenges := List.filter is_active sortedChallenges in
     match activeChallenges with
     | currentChallenge :: _ =>
         mutate (SetActiveChallenges (map as_side_a activeChallenges)) ;;
         mutate (SetActiveChallenge (duel_id (node currentChallenge))) ;;
         mutate (SetChallengeState (state (node currentChallenge))) ;;
         (if bool_decide (state (node currentChallenge) = InProgress)
          then mutate (SetDuelistId (duelist_id_a (node currentChallenge)))
          else Ret tt)
     | [] => Ret tt
     end ;;
     Ret (Success
            ("Found " +:+ pretty (List.length challenges)
               +:+ " total challenges ("
               +:+ pretty (List.length activeChallenges) +:+ " active)")
            {| FetchPayload.challenges := sortedChallenges;
               FetchPayload.activeChallenges := activeChallenges |}))
    (fun error => Ret (Failure error "Failed to fetch challenges")).

(** ** create_challenge *)

Module CreateCall.
Record t := {
    playerAddress : string;
    duelistId : string;
    challengedAddress : string;
    premise : option string;
    quote : string;
    expireHours : Z;
    livesStaked : Z
  }.
End CreateCall.

Module CreatePayload.
Record t := {
    transaction : TxResponse;
    challenge : Challenge
  }.
End CreatePayload.

(** [createResponse.events?.[0]?.data?.[0]] *)
Definition first_event_datum (r : TxResponse) : option string :=
  match events r with
  | Some (e :: _) =>
      match data e with
      | Some (d :: _) => Some d
      | _ => None
      end
  | _ => None
  end.

Section CreateChallenge.
Context (sdk : Sdk).

Definition premise_value (p : option string) : string :=
    match p with
    | None | Some EmptyString => "1"
    | Some p =>
        match getPremiseValue sdk p with
        | Some value => value
        | None => p
        end
    end.

Definition create_challenge (call : CreateCall.t)
    : Prog (ActionResult CreatePayload.t) :=
    try_catch
      (let playerAddress :=
         normalizeStarknetAddress (CreateCall.playerAddress call) in
       let duelistId := CreateCall.duelistId call in
       let challengedAddress :=
         normalizeStarknetAddress (CreateCall.challengedAddress call) in
       let premiseValue := premise_value (CreateCall.premise call) in
       let tableId := bigintToHex sdk (stringToFelt sdk (TABLES_PRACTICE sdk)) in
       let expireHours := or_default (CreateCall.expireHours call) 24 in
       let livesStaked := or_default (CreateCall.livesStaked call) 1 in
       let quoteFelt := bigintToHex sdk (stringToFelt sdk (CreateCall.quote call)) in
       createResponse <- starknetChain_write
         {| contractAddress := duel_contract_address sdk;
            entrypoint := "create_duel";
            calldata :=
              [ArgStr duelistId; ArgStr challengedAddress; ArgStr premiseValue;
               ArgStr quoteFelt; ArgStr tableId; ArgStr (pretty expireHours);
               ArgNum livesStaked] |} ;;
       let duelId := first_event_datum createResponse in
       sleep 3000 ;;
       now <- date_now ;;
       let newChallenge :=
         {| node :=
              {| duel_id := duelId;
                 table_id := tableId;
                 premise := premiseValue;
                 quote := CreateCall.quote call;
                 address_a := playerAddress;
                 address_b := challengedAddress;
                 duelist_id_a := duelistId;
                 duelist_id_b := "";
                 state := Awaiting;
                 winner := None;
                 timestamps := {| ts_start := now / 1000; ts_end := None |} |};
            duelist_id := duelistId |} in
       mutate (PushActiveChallenge newChallenge) ;;
       Ret (Success
              ("Challenge successfully created to " +:+ challengedAddress)
              {| CreatePayload.transaction := createResponse;
                 CreatePayload.challenge := newChallenge |}))
      (fun error => Ret (Failure error "Failed to create challenge")).
End CreateChallenge.

(** ** analyze_duel_history: the duel map *)

Inductive DuelOutcome := win | loss | draw.

Record DuelInfo := {
  isPlayerA : bool;
  result : DuelOutcome
}.

(** The value stored for challenge [c] in [duelMap]; [playerAddress] is the
    normalized address of the call, [c] is a node as the API returned it. *)
Definition duel_info (playerAddress : string) (c : ChallengeData) : DuelInfo :=
  {| isPlayerA := bool_decide (address_a c = playerAddress);
     result :=
       if bool_decide (state c = Draw) then draw
       else if bool_decide
                 (winner c =
                  Some (if bool_decide (address_a c = playerAddress)
                        then duelist_id_a c else duelist_id_b c))
            then win else loss |}.

(** The entries given to [new Map(...)], in order (a later entry for the same
    duel id replaces an earlier one). *)
Definition duelMap_entries (callAddress : string)
    (challengesResult : ChallengesResponse)
  : list (option string * DuelInfo) :=
  let playerAddress := normalizeStarknetAddress callAddress in
  let ourChallenges :=
    default [] (addressAChallenges challengesResult)
      ++ default [] (addressBChallenges challengesResult) in
  map (fun c => (duel_id c, duel_info playerAddress c)) ourChallenges.

(** The memory [create(state)] builds for a new context. *)
Definition initial_state (playerAddress : string) : PistolsState :=
  {| playerAddress := normalizeStarknetAddress playerAddress;
     duelistId := "";
     activeChallenge := Some "";
     activeChallenges := [];
     challengeState := None;
     committedMoves := ∅ |}.

(** ** What a run of each handler does, as data

    The request a handler submits, the entry it stores and the assignments
    it makes, named so that the theorems can state them. *)

Definition apply_mutations (ms : list Mutation) (st : PistolsState)
  : PistolsState :=
  foldl (fun st m => apply_mutation m st) st ms.

(** Whether the chain confirmed a request: resolved with at least one event. *)
Definition confirms (w : World) (req : WriteRequest) : bool :=
  match chain w req with
  | WriteResolved r => has_events r
  | WriteRejected _ => false
  end.

(** The chain write of a commit, as the handler builds it. *)
Definition commit_request (sdk : Sdk) (w : World) (call : CommitCall.t)
  : WriteRequest :=
  {| contractAddress := game_contract_address sdk;
     entrypoint := "commit_moves";
     calldata :=
       [ArgStr (CommitCall.duelistId call); ArgStr (CommitCall.duelId call);
        ArgStr (bigintToHex sdk
                  (make_moves_hash sdk (rand w 0xFFFFFFFF)
                     (CommitCall.moves call)))] |}.

(** The entry a confirmed commit stores. *)
Definition commit_secret (sdk : Sdk) (w : World) (call : CommitCall.t)
  : CommittedMoves :=
  {| salt := rand w 0xFFFFFFFF;
     moves := CommitCall.moves call;
     hash := make_moves_hash sdk (rand w 0xFFFFFFFF) (CommitCall.moves call) |}.

Definition accept_request (sdk : Sdk) (call : AcceptCall.t) : WriteRequest :=
  {| contractAddress := duel_contract_address sdk;
     entrypoint := "reply_duel";
     calldata :=
       [ArgStr (AcceptCall.duelistId call);
        ArgStr (AcceptCall.challengeId call); ArgStr "1"] |}.

(** The memory after a resolved accept. *)
Definition accepted_state (call : AcceptCall.t) (st : PistolsState)
  : PistolsState :=
  let st3 :=
    apply_mutation (SetChallengeState InProgress)
      (apply_mutation (SetDuelistId (AcceptCall.duelistId call))
         (apply_mutation
            (SetActiveChallenge (Some (AcceptCall.challengeId call))) st)) in
  apply_mutation
    (SetActiveChallenges
       (map (fun c =>
               if bool_decide
                    (duel_id (node c) = Some (AcceptCall.challengeId call))
               then accepted_by (AcceptCall.duelistId call) c
               else c)
          (activeChallenges st)))
    st3.

Definition reveal_request (sdk : Sdk) (call : RevealCall.t)
    (storedMoves : CommittedMoves) : WriteRequest :=
  {| contractAddress := game_contract_address sdk;
     entrypoint := "reveal_moves";
     calldata :=
       [ArgStr (RevealCall.duelistId call); ArgStr (RevealCall.duelId call);
        ArgStr (bigintToHex sdk (salt storedMoves));
        ArgNums (moves storedMoves)] |}.

(** The reveal write for a salt text and for moves that may be undefined;
    [reveal_request] is the case of a stored entry. *)
Definition reveal_request_of (sdk : Sdk) (call : RevealCall.t)
    (saltHex : string) (m : option (list Z)) : WriteRequest :=
  {| contractAddress := game_contract_address sdk;
     entrypoint := "reveal_moves";
     calldata :=
       [ArgStr (RevealCall.duelistId call); ArgStr (RevealCall.duelId call);
        ArgStr saltHex; moves_arg m] |}.

(** The value of [bigintToHex(v)], or the message it throws. *)
Definition hex_of (sdk : Sdk) (v : option Z) : string + string :=
  match v with
  | Some n => inr (bigintToHex sdk n)
  | None => bigintToHex_undefined sdk
  end.

(** [[...challengesAsA, ...challengesAsB]]: each node with the duelist of the
    side the player is on. *)
Definition fetched (nodesA nodesB : list ChallengeData) : list Challenge :=
  map (fun n => with_duelist_id n (duelist_id_a n)) nodesA
  ++ map (fun n => with_duelist_id n (duelist_id_b n)) nodesB.

(** The active subset the handler computes and returns. *)
Definition active_subset (nodesA nodesB : list ChallengeData)
  : list Challenge :=
  List.filter is_active (array_sort compare_challenges (fetched nodesA nodesB)).

(** The assignments of the [if (activeChallenges.length > 0)] block. *)
Definition fetch_mutations (active : list Challenge) : list Mutation :=
  match active with
  | [] => []
  | currentChallenge :: _ =>
      [SetActiveChallenges (map as_side_a active);
       SetActiveChallenge (duel_id (node currentChallenge));
       SetChallengeState (state (node currentChallenge))]
      ++ (if bool_decide (state (node currentChallenge) = InProgress)
          then [SetDuelistId (duelist_id_a (node currentChallenge))]
          else [])
  end.

Definition fetch_message (total active : nat) : string :=
  "Found " +:+ pretty total +:+ " total challenges ("
    +:+ pretty active +:+ " active)".

(** ** The vocabulary of the specification *)

(** Whether every chain write of a trace comes after a store of a secret:
    [stored] tells whether a store has been seen so far. *)
Fixpoint stored_before_write (stored : bool) (tr : list Event) : bool :=
  match tr with
  | [] => true
  | EvWrite _ :: tr' => stored && stored_before_write stored tr'
  | EvMutate (StoreCommitted _ _) :: tr' => stored_before_write true tr'
  | _ :: tr' => stored_before_write stored tr'
  end.

(** The move tuple of the specification: exactly four values, a firing step
    and a dodge step in 1..10 that differ, a tactic and a blade. *)
Definition valid_moves (m : list Z) : bool :=
  match m with
  | [fire; dodge; _; _] =>
      (1 <=? fire) && (fire <=? 10) && (1 <=? dodge) && (dodge <=? 10)
      && negb (fire =? dodge)
  | _ => false
  end.

(** The guards of the specification.  The deadline of a challenge is its
    [timestamps.end]; the busy duelists are the ones get_available_duelists
    collects, both duelists of every challenge in progress. *)
Definition expired (now : Z) (c : Challenge) : bool :=
  match ts_end (timestamps (node c)) with
  | Some deadline => deadline <=? now
  | None => false
  end.

Definition busyDuelists (challenges : list Challenge) : list string :=
  flat_map (fun c => [duelist_id_a (node c); duelist_id_b (node c)])
    (List.filter (fun c => bool_decide (state (node c) = InProgress))
       challenges).

Definition is_busy (duelist : string) (challenges : list Challenge) : bool :=
  bool_decide (duelist ∈ busyDuelists challenges).

(** [a] may stand before [b] in an array sorted with [cmp]. *)
Definition goes_first {A : Type} (cmp : A -> A -> Z) (a b : A) : Prop :=
  cmp a b <= 0.

(** The order of the specification on active challenges: in progress before
    awaiting, and within one state the later start first. *)
Definition active_order (a b : Challenge) : Prop :=
  (state (node a) = InProgress /\ state (node b) = Awaiting) \/
  (state (node a) = state (node b) /\
   ts_start (timestamps (node b)) <= ts_start (timestamps (node a))).

(** Every stored challenge carries the duelist of side A. *)
Definition side_a_recorded (st : PistolsState) : Prop :=
  Forall (fun c => duelist_id c = duelist_id_a (node c)) (activeChallenges st).

(** The memories the agent can be in: the one of a new context, and the one
    each action leaves.  The six other actions of the extension assign only
    [isRegistered], [starterPackClaimed], [playerPacks], [playerDuelists],
    [tasks], [currentTask] and [duelResults], which are not part of
    [PistolsState] here, so they leave these memories as they are. *)
Inductive reachable : PistolsState -> Prop :=
| reach_initial playerAddress :
    reachable (initial_state playerAddress)
| reach_fetch_challenges w call st :
    reachable st ->
    reachable (memory_of (run w (fetch_challenges call) st))
| reach_accept_challenge sdk w call st :
    reachable st ->
    reachable (memory_of (run w (accept_challenge sdk call) st))
| reach_create_challenge sdk w call st :
    reachable st ->
    reachable (memory_of (run w (create_challenge sdk call) st))
| reach_commit_moves sdk w call st :
    reachable st ->
    reachable (memory_of (run w (commit_moves sdk call) st))
| reach_reveal_moves sdk w call st :
    reachable st ->
    reachable (memory_of (run w (reveal_moves sdk call) st)).

(** ** Concrete collaborators and inputs for the closed examples

    [demo_sdk] fixes the SDK parameters: [bigintToHex] prints lowercase
    hexadecimal after [0x]; the hash is a stand-in mixing function.  Every
    statement closed on it below is an instance of a lemma that holds for
    all SDKs. *)

Definition demo_sdk : Sdk :=
  {| make_moves_hash :=
       fun salt moves => fold_left (fun acc m => acc * 31 + m) moves salt;
     bigintToHex := HexString.of_Z;
     bigintToHex_undefined := inr "0x0";
     stringToFelt := fun s => Z.of_nat (String.length s);
     getPremiseValue := fun _ => None;
     TABLES_PRACTICE := "Practice";
     game_contract_address := "0x6a";
     duel_contract_address := "0xd0" |}.

(** A confirmed transaction: one emitted event. *)
Definition confirmed : TxResponse :=
  {| events := Some [ {| data := Some ["0x2a"] |} ] |}.

(** A world whose chain confirms every write. *)
Definition confirming_world (draw : Z) : World :=
  {| chain := fun _ => WriteResolved confirmed;
     api := fun _ => QueryRejected "unused";
     rand := fun _ => draw;
     clock := 200000 |}.

(** A world whose chain rejects every write. *)
Definition rejecting_world (draw : Z) : World :=
  {| chain := fun _ => WriteRejected "Transaction reverted";
     api := fun _ => QueryRejected "unused";
     rand := fun _ => draw;
     clock := 200000 |}.

(** A first commit for duel 7, with moves [3,7,1,2] and the draw 111, the
    secret it stores and the memory it leaves. *)
Definition first_commit : CommitCall.t :=
  {| CommitCall.playerAddress := "0xabc";
     CommitCall.duelistId := "3";
     CommitCall.duelId := "7";
     CommitCall.moves := [3; 7; 1; 2] |}.

Definition first_secret : CommittedMoves :=
  {| salt := 111; moves := [3; 7; 1; 2];
     hash := make_moves_hash demo_sdk 111 [3; 7; 1; 2] |}.

Definition committed_state : PistolsState :=
  memory_of (run (confirming_world 111) (commit_moves demo_sdk first_commit)
               (initial_state "0x0ABC")).

(** A second commit for the same duel, before any reveal. *)
Definition second_commit : CommitCall.t :=
  {| CommitCall.playerAddress := "0xabc";
     CommitCall.duelistId := "4";
     CommitCall.duelId := "7";
     CommitCall.moves := [4; 8; 2; 1] |}.

Definition fresh_commit : CommitCall.t :=
  {| CommitCall.playerAddress := "0xabc";
     CommitCall.duelistId := "3";
     CommitCall.duelId := "9";
     CommitCall.moves := [3; 7; 1; 2] |}.

Definition invalid_commit : CommitCall.t :=
  {| CommitCall.playerAddress := "0xabc";
     CommitCall.duelistId := "3";
     CommitCall.duelId := "9";
     CommitCall.moves := [11; 11] |}.

Definition expired_node : ChallengeData :=
  {| duel_id := Some "5"; table_id := "0x1"; premise := "1";
     quote := "ha"; address_a := "0xdef"; address_b := "0xabc";
     duelist_id_a := "8"; duelist_id_b := "";
     state := Awaiting; winner := None;
     timestamps := {| ts_start := 10; ts_end := Some 100 |} |}.

Definition running_node : ChallengeData :=
  {| duel_id := Some "4"; table_id := "0x1"; premise := "1";
     quote := "ho"; address_a := "0x123"; address_b := "0xabc";
     duelist_id_a := "1"; duelist_id_b := "9";
     state := InProgress; winner := None;
     timestamps := {| ts_start := 20; ts_end := None |} |}.

(** The player 0xabc is challenged in duel 5 (awaiting, deadline 100) and
    is fighting duel 4 with duelist 9; [engaged_state] is the memory after
    fetching these challenges. *)
Definition engaged_world : World :=
  {| chain := fun _ => WriteResolved confirmed;
     api := fun _ =>
       QueryResolved {| addressAChallenges := Some [];
                        addressBChallenges := Some [expired_node; running_node] |};
     rand := fun _ => 0;
     clock := 200000 |}.

Definition engaged_state : PistolsState :=
  memory_of (run engaged_world
               (fetch_challenges {| FetchCall.playerAddress := "0xabc" |})
               (initial_state "0xabc")).

Definition late_accept : AcceptCall.t :=
  {| AcceptCall.playerAddress := "0xabc";
     AcceptCall.duelistId := "9";
     AcceptCall.challengeId := "5" |}.

Definition reveal_7 : RevealCall.t :=
  {| RevealCall.playerAddress := "0xabc";
     RevealCall.duelistId := "3";
     RevealCall.duelId := "7" |}.

(** A reveal for a duel id that is the name of a member of
    [Object.prototype]. *)
Definition inherited_reveal : RevealCall.t :=
  {| RevealCall.playerAddress := "0xabc";
     RevealCall.duelistId := "3";
     RevealCall.duelId := "constructor" |}.

(** A fetch with one challenge of each kind: the player is challenger in
    duels 1 (awaiting), 2 (in progress) and 3 (resolved), and challenged in
    duel 4 (in progress, started last). *)
Definition sample_node (id : string) (a b da db : string)
    (s : ChallengeState) (start : Z) : ChallengeData :=
  {| duel_id := Some id; table_id := "0x1"; premise := "1"; quote := "ha";
     address_a := a; address_b := b; duelist_id_a := da; duelist_id_b := db;
     state := s; winner := None;
     timestamps := {| ts_start := start; ts_end := None |} |}.

Definition sample_response : ChallengesResponse :=
  {| addressAChallenges :=
       Some [sample_node "1" "0xabc" "0xdef" "7" "" Awaiting 50;
             sample_node "2" "0xabc" "0xdef" "6" "3" InProgress 30;
             sample_node "3" "0xabc" "0xdef" "5" "2" Resolved 90];
     addressBChallenges :=
       Some [sample_node "4" "0xdef" "0xabc" "8" "9" InProgress 70] |}.

Definition sample_world : World :=
  {| chain := fun _ => WriteRejected "unused";
     api := fun _ => QueryResolved sample_response;
     rand := fun _ => 0;
     clock := 200000 |}.

Definition sample_fetch : FetchCall.t :=
  {| FetchCall.playerAddress := "0x0ABC" |}.

(** A duel the player won as challenger, as the API returns it: the address
    of side A is the player's, padded with a zero. *)
Definition won_as_challenger : ChallengeData :=
  {| duel_id := Some "12"; table_id := "0x1"; premise := "1"; quote := "ha";
     address_a := "0x0abc"; address_b := "0xdef";
     duelist_id_a := "8"; duelist_id_b := "9";
     state := Resolved; winner := Some "8";
     timestamps := {| ts_start := 10; ts_end := Some 20 |} |}.

Definition history_response : ChallengesResponse :=
  {| addressAChallenges := Some [won_as_challenger];
     addressBChallenges := Some [] |}.

(** ** More vocabulary: spellings of an address *)

(** [k] zero digits. *)
Fixpoint zeros (k : nat) : string :=
  match k with
  | O => EmptyString
  | S k' => String "0" (zeros k')
  end.

(** ** More of what a run does, as data *)

(** The chain write of create_challenge, as the handler builds it. *)
Definition create_request (sdk : Sdk) (call : CreateCall.t) : WriteRequest :=
  {| contractAddress := duel_contract_address sdk;
     entrypoint := "create_duel";
     calldata :=
       [ArgStr (CreateCall.duelistId call);
        ArgStr (normalizeStarknetAddress (CreateCall.challengedAddress call));
        ArgStr (premise_value sdk (CreateCall.premise call));
        ArgStr (bigintToHex sdk (stringToFelt sdk (CreateCall.quote call)));
        ArgStr (bigintToHex sdk (stringToFelt sdk (TABLES_PRACTICE sdk)));
        ArgStr (pretty (or_default (CreateCall.expireHours call) 24));
        ArgNum (or_default (CreateCall.livesStaked call) 1)] |}.

(** The [newChallenge] object of create_challenge. *)
Definition new_challenge (sdk : Sdk) (w : World) (call : CreateCall.t)
    (createResponse : TxResponse) : Challenge :=
  {| node :=
       {| duel_id := first_event_datum createResponse;
          table_id := bigintToHex sdk (stringToFelt sdk (TABLES_PRACTICE sdk));
          premise := premise_value sdk (CreateCall.premise call);
          quote := CreateCall.quote call;
          address_a := normalizeStarknetAddress (CreateCall.playerAddress call);
          address_b :=
            normalizeStarknetAddress (CreateCall.challengedAddress call);
          duelist_id_a := CreateCall.duelistId call;
          duelist_id_b := "";
          state := Awaiting;
          winner := None;
          timestamps := {| ts_start := clock w / 1000; ts_end := None |} |};
     duelist_id := CreateCall.duelistId call |}.

(** What accept_challenge may change in a stored challenge: nothing when the
    duel id differs, the state and the duelist of side B when it matches. *)
Definition accepted_entry (challengeId duelistId : string)
    (before after : Challenge) : Prop :=
  duel_id (node after) = duel_id (node before) /\
  address_a (node after) = address_a (node before) /\
  address_b (node after) = address_b (node before) /\
  duelist_id_a (node after) = duelist_id_a (node before) /\
  duelist_id after = duelist_id before /\
  timestamps (node after) = timestamps (node before) /\
  (duel_id (node before) = Some challengeId ->
   state (node after) = InProgress /\ duelist_id_b (node after) = duelistId) /\
  (duel_id (node before) <> Some challengeId -> after = before).

Definition unknown_accept : AcceptCall.t :=
  {| AcceptCall.playerAddress := "0xabc";
     AcceptCall.duelistId := "9";
     AcceptCall.challengeId := "77" |}.

Definition sample_create : CreateCall.t :=
  {| CreateCall.playerAddress := "0x0ABC";
     CreateCall.duelistId := "7";
     CreateCall.challengedAddress := "0x00DEF";
     CreateCall.premise := None;
     CreateCall.quote := "ha";
     CreateCall.expireHours := 24;
     CreateCall.livesStaked := 1 |}.

(** A world whose chain resolves every write with no event at all. *)
Definition silent_world : World :=
  {| chain := fun _ => WriteResolved {| events := None |};
     api := fun _ => QueryRejected "unused";
     rand := fun _ => 0;
     clock := 200000 |}.

(** The order of the whole sorted list: by the priority of the state, then
    the later start first. *)
Definition priority_order (a b : Challenge) : Prop :=
  statePriority (state (node a)) < statePriority (state (node b)) \/
  (statePriority (state (node a)) = statePriority (state (node b)) /\
   ts_start (timestamps (node b)) <= ts_start (timestamps (node a))).

(** A fetch that finds only finished duels. *)
Definition finished_response : ChallengesResponse :=
  {| addressAChallenges :=
       Some [sample_node "3" "0xabc" "0xdef" "5" "2" Resolved 90];
     addressBChallenges :=
       Some [sample_node "6" "0xdef" "0xabc" "8" "9" Expired 70] |}.

Definition finished_world : World :=
  {| chain := fun _ => WriteRejected "unused";
     api := fun _ => QueryResolved finished_response;
     rand := fun _ => 0;
     clock := 200000 |}.

(** ** get_duel_cards *)

(** [CARD_TYPES]: SHOOT 0, DODGE 1, TACTIC 2, BLADE 3. *)
Inductive CardType := SHOOT | DODGE | TACTIC | BLADE.

(** [Object.values(CARD_TYPES)], in the order of the declaration. *)
Definition CARD_TYPES_values : list CardType := [SHOOT; DODGE; TACTIC; BLADE].

Record ProcessedDeck := {
  shoot : list Z;
  dodge : list Z;
  tactics : list Z;
  blades : list Z
}.

Definition empty_deck : ProcessedDeck :=
  {| shoot := []; dodge := []; tactics := []; blades := [] |}.

(** The [switch (cardType)] that stores the cards just read. *)
Definition set_cards (cardType : CardType) (cards : list Z)
    (processedDeck : ProcessedDeck) : ProcessedDeck :=
  match cardType with
  | SHOOT =>
      {| shoot := cards; dodge := dodge processedDeck;
         tactics := tactics processedDeck; blades := blades processedDeck |}
  | DODGE =>
      {| shoot := shoot processedDeck; dodge := cards;
         tactics := tactics processedDeck; blades := blades processedDeck |}
  | TACTIC =>
      {| shoot := shoot processedDeck; dodge := dodge processedDeck;
         tactics := cards; blades := blades processedDeck |}
  | BLADE =>
      {| shoot := shoot processedDeck; dodge := dodge processedDeck;
         tactics := tactics processedDeck; blades := cards |}
  end.

(** [deckResponse.events?.[0]?.data] *)
Definition first_event_data (r : TxResponse) : option (list string) :=
  match events r with
  | Some (e :: _) => data e
  | _ => None
  end.

Record AvailableMoves := {
  shoot_count : nat;
  dodge_count : nat;
  tactics_count : nat;
  blades_count : nat
}.

Module DeckCall.
Record t := { duelId : string }.
End DeckCall.

Module DeckPayload.
Record t := {
  deck : ProcessedDeck;
  availableMoves : AvailableMoves
}.
End DeckPayload.

(** [parseInt16 s] stands for the builtin [parseInt(s, 16)], [None] for NaN.
    The position [currentIndex] in [deckData] is carried as the entries from
    that position on. *)
Section DuelCards.
Context (parseInt16 : string -> option Z) (sdk : Sdk).

(** The inner loop [for (i; i < cardCount && currentIndex < length; i++)]:
    the cards pushed and the entries left. *)
Fixpoint read_cards (cardCount i : Z) (rest : list string)
  : list Z * list string :=
  match rest with
  | [] => ([], [])
  | s :: rest' =>
      if i <? cardCount then
        let '(cards, rest'') := read_cards cardCount (i + 1) rest' in
        (match parseInt16 s with
         | Some cardValue => cardValue :: cards
         | None => cards
         end, rest'')
      else ([], rest)
  end.

(** The loop over the card types, with its [break] at the end of the data. *)
Fixpoint process_card_types (types : list CardType)
    (processedDeck : ProcessedDeck) (rest : list string) : ProcessedDeck :=
  match types with
  | [] => processedDeck
  | cardType :: types' =>
      match rest with
      | [] => processedDeck
      | s :: rest' =>
          match parseInt16 s with
          | Some cardCount =>
              let '(cards, rest'') := read_cards cardCount 0 rest' in
              process_card_types types' (set_cards cardType cards processedDeck)
                rest''
          | None => process_card_types types' processedDeck rest'
          end
      end
  end.

(** From [deckData] to [processedDeck]: the three header values are skipped. *)
Definition process_deck (deckData : option (list string)) : ProcessedDeck :=
  match deckData with
  | Some deckData =>
      process_card_types CARD_TYPES_values empty_deck (drop 3 deckData)
  | None => empty_deck
  end.

Definition get_duel_cards (call : DeckCall.t)
  : Prog (ActionResult DeckPayload.t) :=
  try_catch
    (let duelId := DeckCall.duelId call in
     deckResponse <- starknetChain_write
       {| contractAddress := game_contract_address sdk;
          entrypoint := "get_duel_deck";
          calldata := [ArgStr duelId] |} ;;
     let deckData := first_event_data deckResponse in
     let processedDeck := process_deck deckData in
     Ret (Success "Successfully retrieved duel cards"
            {| DeckPayload.deck := processedDeck;
               DeckPayload.availableMoves :=
                 {| shoot_count := List.length (shoot processedDeck);
                    dodge_count := List.length (dodge processedDeck);
                    tactics_count := List.length (tactics processedDeck);
                    blades_count := List.length (blades processedDeck) |} |}))
    (fun error => Ret (Failure error "Failed to get duel cards")).

End DuelCards.

(** The cards of one type. *)
Definition cards_of (cardType : CardType) (processedDeck : ProcessedDeck)
  : list Z :=
  match cardType with
  | SHOOT => shoot processedDeck
  | DODGE => dodge processedDeck
  | TACTIC => tactics processedDeck
  | BLADE => blades processedDeck
  end.

(** All the cards of a deck, type after type. *)
Definition all_cards (processedDeck : ProcessedDeck) : list Z :=
  shoot processedDeck ++ dodge processedDeck ++ tactics processedDeck
    ++ blades processedDeck.

(** One group of the layout of a deck: the count, then that many cards. *)
Definition card_group (parseInt16 : string -> option Z)
    (entries : list string) (cards : list Z) : Prop :=
  match entries with
  | [] => False
  | count :: values =>
      parseInt16 count = Some (Z.of_nat (List.length cards)) /\
      Forall2 (fun s v => parseInt16 s = Some v) values cards
  end.

Definition deck_request (sdk : Sdk) (call : DeckCall.t) : WriteRequest :=
  {| contractAddress := game_contract_address sdk;
     entrypoint := "get_duel_deck";
     calldata := [ArgStr (DeckCall.duelId call)] |}.

(** A reading of hexadecimal text for the closed examples: an optional
    [0x] or [0X], then the longest run of hexadecimal digits; NaN when there
    is no digit. *)
Definition hex_digit (c : ascii) : option Z :=
  let n := Z.of_N (N_of_ascii c) in
  if (48 <=? n) && (n <=? 57) then Some (n - 48)
  else if (97 <=? n) && (n <=? 102) then Some (n - 87)
  else if (65 <=? n) && (n <=? 70) then Some (n - 55)
  else None.

Fixpoint hex_digits (acc : option Z) (s : string) : option Z :=
  match s with
  | EmptyString => acc
  | String c s' =>
      match hex_digit c with
      | Some d => hex_digits (Some (default 0 acc * 16 + d)) s'
      | None => acc
      end
  end.

Definition demo_parseInt16 (s : string) : option Z :=
  match s with
  | String "0" (String "x" digits) | String "0" (String "X" digits) =>
      hex_digits None digits
  | _ => hex_digits None s
  end.

(** A deck as the chain returns it: three header values, then 2 shoot
    cards, 2 dodge cards, 1 tactic card and 3 blade cards. *)
Definition sample_deck_data : list string :=
  ["0x1"; "0x23"; "0x4";
   "0x2"; "0x1"; "0xa";
   "0x2"; "0x3"; "0x7";
   "0x1"; "0x5";
   "0x3"; "0x1"; "0x2"; "0x4"].

Definition deck_world : World :=
  {| chain := fun _ =>
       WriteResolved {| events := Some [ {| data := Some sample_deck_data |} ] |};
     api := fun _ => QueryRejected "unused";
     rand := fun _ => 0;
     clock := 200000 |}.

(** ** analyze_duel_history: the rounds *)

Record RoundMoves := {
  card_1 : Z;
  card_2 : Z;
  card_3 : Z;
  card_4 : Z
}.

Record RoundState := {
  chances : Z;
  damage : Z;
  health : Z;
  dice_fire : Z;
  honour : Z
}.

Record FinalBlow := {
  Paces : Z;
  Blades : Z
}.

Module RoundData.
Record t := {
  duel_id : string;
  moves_a : RoundMoves;
  moves_b : RoundMoves;
  state_a : RoundState;
  state_b : RoundState;
  state : string;
  final_blow : FinalBlow
}.
End RoundData.

Module DuelResult.
Record t := {
  duel_id : string;
  playerMoves : RoundMoves;
  opponentMoves : RoundMoves;
  playerState : RoundState;
  opponentState : RoundState;
  result : DuelOutcome;
  final_blow : FinalBlow
}.
End DuelResult.

(** [Map.prototype.get] on the map built from a list of entries: the last
    entry of a key is the one the map holds. *)
Fixpoint Map_get {V : Type} (entries : list (option string * V))
    (key : option string) : option V :=
  match entries with
  | [] => None
  | (k, v) :: entries' =>
      match Map_get entries' key with
      | Some v' => Some v'
      | None => if bool_decide (k = key) then Some v else None
      end
  end.

(** [Map.prototype.has] *)
Definition Map_has {V : Type} (entries : list (option string * V))
    (key : option string) : bool :=
  match Map_get entries key with
  | Some _ => true
  | None => false
  end.

(** The object built for one round from the info of its duel. *)
Definition round_result (duelInfo : DuelInfo) (round : RoundData.t)
  : DuelResult.t :=
  {| DuelResult.duel_id := RoundData.duel_id round;
     DuelResult.playerMoves :=
       if isPlayerA duelInfo then RoundData.moves_a round
       else RoundData.moves_b round;
     DuelResult.opponentMoves :=
       if isPlayerA duelInfo then RoundData.moves_b round
       else RoundData.moves_a round;
     DuelResult.playerState :=
       if isPlayerA duelInfo then RoundData.state_a round
       else RoundData.state_b round;
     DuelResult.opponentState :=
       if isPlayerA duelInfo then RoundData.state_b round
       else RoundData.state_a round;
     DuelResult.result := result duelInfo;
     DuelResult.final_blow := RoundData.final_blow round |}.

(** The [.map(round => ...)] of the filtered rounds; its callback throws
    when the map has no info for the round. *)
Fixpoint map_rounds (duelMap : list (option string * DuelInfo))
    (rounds : list RoundData.t) : string + list DuelResult.t :=
  match rounds with
  | [] => inr []
  | round :: rounds' =>
      match Map_get duelMap (Some (RoundData.duel_id round)) with
      | None =>
          inl ("No duel info found for round " +:+ RoundData.duel_id round)
      | Some duelInfo =>
          match map_rounds duelMap rounds' with
          | inl error => inl error
          | inr results => inr (round_result duelInfo round :: results)
          end
      end
  end.

(** [ourRounds]: the rounds of the API that belong to our duels, processed. *)
Definition ourRounds (callAddress : string)
    (challengesResult : ChallengesResponse) (rounds : list RoundData.t)
  : string + list DuelResult.t :=
  let duelMap := duelMap_entries callAddress challengesResult in
  map_rounds duelMap
    (List.filter
       (fun round => Map_has duelMap (Some (RoundData.duel_id round)))
       rounds).

(** A result pairs the two sides of its round: the player is one side, the
    opponent the other, for the moves and for the state alike. *)
Definition sides_of (round : RoundData.t) (r : DuelResult.t) : Prop :=
  DuelResult.duel_id r = RoundData.duel_id round /\
  DuelResult.final_blow r = RoundData.final_blow round /\
  ((DuelResult.playerMoves r = RoundData.moves_a round /\
    DuelResult.opponentMoves r = RoundData.moves_b round /\
    DuelResult.playerState r = RoundData.state_a round /\
    DuelResult.opponentState r = RoundData.state_b round) \/
   (DuelResult.playerMoves r = RoundData.moves_b round /\
    DuelResult.opponentMoves r = RoundData.moves_a round /\
    DuelResult.playerState r = RoundData.state_b round /\
    DuelResult.opponentState r = RoundData.state_a round)).

(** The duel ids of the challenges of an answer. *)
Definition our_duel_ids (challengesResult : ChallengesResponse)
  : list (option string) :=
  map duel_id
    (default [] (addressAChallenges challengesResult)
       ++ default [] (addressBChallenges challengesResult)).

(** ** get_available_duelists: the target and the busy duelists *)

(** [playerAddresses]: every player of the API, normalized, but ours. *)
Definition other_players (ourAddress : string) (player_addresses : list string)
  : list string :=
  List.filter (fun address => negb (bool_decide (address = ourAddress)))
    (map normalizeStarknetAddress player_addresses).

(** [!!s] on an optional string. *)
Definition truthy (s : option string) : bool :=
  match s with
  | Some (String _ _) => true
  | _ => false
  end.

(** [array[i]] for a number [i]: [undefined] out of the array. *)
Definition js_index {A : Type} (l : list A) (i : Z) : option A :=
  if i <? 0 then None else l !! Z.to_nat i.

(** The choice of [targetAddress]; [pick] is the value of
    [Math.floor(Math.random() * playerAddresses.length)], [None] the throw of
    "No valid target address found". *)
Definition choose_target (playerAddresses : list string)
    (targetAddress : option string) (pick : Z) : option string :=
  let targetAddress :=
    if negb (truthy targetAddress)
       || negb (bool_decide
                  (normalizeStarknetAddress (default "" targetAddress)
                   ∈ playerAddresses))
    then js_index playerAddresses pick
    else targetAddress in
  if negb (truthy targetAddress) then None
  else Some (normalizeStarknetAddress (default "" targetAddress)).

Module DuelistData.
(** [metadata], an arbitrary JSON value, is left out. *)
Record t := {
  duelist_id : string;
  name : string;
  archetype : string;
  image_url : string;
  life_count : Z;
  is_alive : bool;
  fame_balance : Z;
  is_inactive : bool
}.
End DuelistData.

(** [busyDuelists] as the handler fills it: both duelists of every
    challenge of the in-progress query. *)
Definition busy_set (challenges : list (string * string)) : list string :=
  flat_map (fun challenge => [challenge.1; challenge.2]) challenges.

(** [availableDuelists] *)
Definition availableDuelists (busy : list string)
    (duelists : list DuelistData.t) : list DuelistData.t :=
  List.filter
    (fun duelist =>
       DuelistData.is_alive duelist
       && negb (DuelistData.is_inactive duelist)
       && negb (bool_decide (DuelistData.duelist_id duelist ∈ busy)))
    duelists.

Definition sample_round (id : string) (a b : Z) : RoundData.t :=
  {| RoundData.duel_id := id;
     RoundData.moves_a := {| card_1 := a; card_2 := 2; card_3 := 1; card_4 := 1 |};
     RoundData.moves_b := {| card_1 := b; card_2 := 4; card_3 := 2; card_4 := 3 |};
     RoundData.state_a :=
       {| chances := 50; damage := 1; health := 3; dice_fire := 20; honour := 10 |};
     RoundData.state_b :=
       {| chances := 40; damage := 3; health := 0; dice_fire := 70; honour := 9 |};
     RoundData.state := "Finished";
     RoundData.final_blow := {| Paces := a; Blades := 0 |} |}.

Definition sample_duelist (id : string) (alive : bool) : DuelistData.t :=
  {| DuelistData.duelist_id := id;
     DuelistData.name := "Unknown";
     DuelistData.archetype := "Unknown";
     DuelistData.image_url := "";
     DuelistData.life_count := 3;
     DuelistData.is_alive := alive;
     DuelistData.fame_balance := 0;
     DuelistData.is_inactive := false |}.

(** A commit and a reveal for the duel id [__proto__]. *)
Definition proto_commit : CommitCall.t :=
  {| CommitCall.playerAddress := "0xabc";
     CommitCall.duelistId := "3";
     CommitCall.duelId := "__proto__";
     CommitCall.moves := [3; 7; 1; 2] |}.

Definition proto_reveal : RevealCall.t :=
  {| RevealCall.playerAddress := "0xabc";
     RevealCall.duelistId := "3";
     RevealCall.duelId := "__proto__" |}.

(** * Properties *)

(** ** normalizeStarknetAddress on examples *)

Example normalize_padded :
  normalizeStarknetAddress "0x00ABc1" = "0xabc1".
Proof. reflexivity. Qed.

Example normalize_no_prefix :
  normalizeStarknetAddress "0Abc1" = "0xabc1".
Proof. reflexivity. Qed.

Example normalize_empty : normalizeStarknetAddress "" = "".
Proof. reflexivity. Qed.

(** ** The secret store *)

(** Reading a key just assigned gives the entry assigned, for every key. *)
Lemma store_lookup_insert_eq (store : SecretStore) key entry :
  <[key := entry]> store !! key = Some entry.
Proof.
  unfold insert, SecretStore_insert, lookup, SecretStore_lookup, js_set, js_get.
  destruct (bool_decide_reflect (key = "__proto__")) as [-> | Hkey]; cbn.
  - destruct (bool_decide_reflect (own store !! "__proto__" = None))
      as [Hnone | Hsome]; cbn.
    + now rewrite Hnone.
    + now rewrite lookup_insert_eq.
  - now rewrite lookup_insert_eq.
Qed.

(** An assignment to a key other than [__proto__] changes what no other key
    reads. *)
Lemma js_get_set_ne (store : SecretStore) key entry other :
  key <> "__proto__" -> other <> key ->
  js_get (js_set key entry store) other = js_get store other.
Proof.
  intros Hkey Hother. unfold js_set, js_get.
  rewrite (bool_decide_eq_false_2 _ Hkey). cbn.
  rewrite lookup_insert_ne by congruence. reflexivity.
Qed.

(** A [delete] changes what no other key reads. *)
Lemma js_get_delete_ne (store : SecretStore) key other :
  other <> key -> js_get (js_delete key store) other = js_get store other.
Proof.
  intros Hother. unfold js_delete, js_get. cbn.
  rewrite lookup_delete_ne by congruence. reflexivity.
Qed.

(** After a [delete] a key reads what it inherits. *)
Lemma js_get_delete_eq (store : SecretStore) key :
  js_get (js_delete key store) key = inherited store key.
Proof. unfold js_delete, js_get. cbn. now rewrite lookup_delete_eq. Qed.

Lemma js_delete_set (store : SecretStore) key entry :
  key <> "__proto__" ->
  js_delete key (js_set key entry store) = js_delete key store.
Proof.
  intros Hkey. unfold js_set, js_delete.
  rewrite (bool_decide_eq_false_2 _ Hkey). cbn.
  now rewrite delete_insert_eq.
Qed.

(** An entry that is read was assigned: it is an own property, or it is the
    prototype read under [__proto__]. *)
Lemma store_lookup_Some (store : SecretStore) key entry :
  store !! key = Some entry <->
  own store !! key = Some entry \/
  (own store !! key = None /\ key = "__proto__" /\ proto store = Some entry).
Proof.
  unfold lookup at 1, SecretStore_lookup, js_get, inherited,
    from_Object_prototype.
  destruct (own store !! key) as [e |] eqn:Hown.
  - split; [intros [= ->]; now left |].
    intros [[= ->] | [[=] _]]. reflexivity.
  - destruct (bool_decide_reflect (key = "__proto__")) as [-> | Hkey].
    + destruct (proto store) as [e |].
      * split; [intros [= ->]; right; auto | intros [[=] | [_ [_ [= ->]]]]];
          reflexivity.
      * split; [discriminate | intros [[=] | [_ [_ [=]]]]].
    + split; [| intros [[=] | [_ [H _]]]; contradiction].
      destruct (proto store) as [e |]; repeat case_bool_decide; discriminate.
Qed.

Lemma store_lookup_delete_ne (store : SecretStore) key other :
  other <> key -> delete key store !! other = store !! other.
Proof.
  intros Hother. unfold lookup, SecretStore_lookup.
  change (delete key store) with (js_delete key store).
  now rewrite js_get_delete_ne.
Qed.

(** A [delete] of a key that is no own property changes nothing. *)
Lemma js_delete_absent (store : SecretStore) key :
  own store !! key = None -> js_delete key store = store.
Proof.
  intros Hown. destruct store as [o p]. unfold js_delete. cbn in *.
  now rewrite delete_id.
Qed.

(** ** commit_moves *)

(** The run of commit_moves, case by case on the answer of the chain. *)
Lemma commit_moves_run sdk w call st :
  run w (commit_moves sdk call) st =
  match chain w (commit_request sdk w call) with
  | WriteRejected e =>
      ([EvWrite (commit_request sdk w call)], st,
       inr (Failure e "Failed to commit moves"))
  | WriteResolved r =>
      if has_events r then
        ([EvWrite (commit_request sdk w call);
          EvMutate (SetActiveChallenge (Some (CommitCall.duelId call)));
          EvMutate (SetDuelistId (CommitCall.duelistId call));
          EvMutate (StoreCommitted (CommitCall.duelId call)
                      (commit_secret sdk w call));
          EvSleep 3000],
         apply_mutation
           (StoreCommitted (CommitCall.duelId call) (commit_secret sdk w call))
           (apply_mutation (SetDuelistId (CommitCall.duelistId call))
              (apply_mutation
                 (SetActiveChallenge (Some (CommitCall.duelId call))) st)),
         inr (Success "Moves successfully committed"
                {| CommitPayload.salt := bigintToHex sdk (rand w 0xFFFFFFFF);
                   CommitPayload.moves := CommitCall.moves call;
                   CommitPayload.hash :=
                     bigintToHex sdk
                       (make_moves_hash sdk (rand w 0xFFFFFFFF)
                          (CommitCall.moves call));
                   CommitPayload.transaction := r |}))
      else
        ([EvWrite (commit_request sdk w call)], st,
         inr (Failure "Commit transaction did not emit events"
                "Failed to commit moves"))
  end.
Proof.
  unfold commit_moves, commit_request, commit_secret. cbn.
  destruct (chain w _) as [e | r]; cbn; [reflexivity |].
  destruct (has_events r); reflexivity.
Qed.

(** C1, counterexample: duel 7 already has the secret of a first commit
    (salt 111, moves [3,7,1,2]); a second commit for duel 7 that the chain
    confirms replaces it by the secret of the second call (salt 222, moves
    [4,8,2,1]). *)
Lemma commit_moves_second_commit_overwrites :
  committedMoves committed_state !! "7" = Some first_secret /\
  committedMoves
    (memory_of (run (confirming_world 222)
                  (commit_moves demo_sdk second_commit) committed_state))
    !! "7"
  = Some {| salt := 222; moves := [4; 8; 2; 1];
            hash := make_moves_hash demo_sdk 222 [4; 8; 2; 1] |} /\
  committedMoves
    (memory_of (run (confirming_world 222)
                  (commit_moves demo_sdk second_commit) committed_state))
    !! "7"
  <> Some first_secret.
Proof.
  split; [reflexivity |]. split; [reflexivity |].
  intros H. vm_compute in H. discriminate H.
Qed.

(** C1, amended: commit_moves has no guard on an existing entry.  When the
    duel id already has a stored secret, after a second commit_moves for that
    duel id the stored entry is the new salt, moves and hash if the chain
    confirmed the second write (resolved with at least one event), and is the
    first stored secret, unchanged, if the write was rejected or emitted no
    event. *)
Theorem commit_moves_existing_secret
    (sdk : Sdk) (w : World) (call : CommitCall.t) (st : PistolsState)
    (first : CommittedMoves) :
  committedMoves st !! CommitCall.duelId call = Some first ->
  committedMoves (memory_of (run w (commit_moves sdk call) st))
    !! CommitCall.duelId call
  = Some (if confirms w (commit_request sdk w call)
          then commit_secret sdk w call
          else first).
Proof.
  intros Hfirst. rewrite commit_moves_run. unfold confirms.
  destruct (chain w _) as [e | r]; cbn; [exact Hfirst |].
  destruct (has_events r); cbn; [apply store_lookup_insert_eq | exact Hfirst].
Qed.

Lemma commit_moves_existing_secret_witness :
  committedMoves
    (memory_of (run (confirming_world 222)
                  (commit_moves demo_sdk second_commit) committed_state))
    !! CommitCall.duelId second_commit
  = Some (if confirms (confirming_world 222)
               (commit_request demo_sdk (confirming_world 222) second_commit)
          then commit_secret demo_sdk (confirming_world 222) second_commit
          else first_secret).
Proof.
  apply (commit_moves_existing_secret demo_sdk (confirming_world 222)
           second_commit committed_state first_secret).
  reflexivity.
Defined.

(** C2, counterexample: in a confirmed commit the write is the first effect
    and the store comes after it; in a rejected commit the hash has been
    submitted and the secret is never stored. *)
Lemma commit_moves_writes_before_storing :
  stored_before_write false
    (trace_of (run (confirming_world 222)
                 (commit_moves demo_sdk fresh_commit) (initial_state "0xabc")))
  = false /\
  trace_of (run (rejecting_world 222)
              (commit_moves demo_sdk fresh_commit) (initial_state "0xabc"))
  = [EvWrite (commit_request demo_sdk (rejecting_world 222) fresh_commit)] /\
  committedMoves
    (memory_of (run (rejecting_world 222)
                  (commit_moves demo_sdk fresh_commit) (initial_state "0xabc")))
    !! "9" = None.
Proof. rewrite !commit_moves_run. cbn. repeat split; reflexivity. Qed.

(** C2, amended: in every execution of commit_moves the external commit
    write is the first effect; salt, moves and hash are stored only after the
    chain has confirmed that write, and nothing is stored (and nothing else
    happens) when the write is rejected or emits no event. *)
Theorem commit_moves_trace
    (sdk : Sdk) (w : World) (call : CommitCall.t) (st : PistolsState) :
  trace_of (run w (commit_moves sdk call) st)
  = EvWrite (commit_request sdk w call)
    :: (if confirms w (commit_request sdk w call)
        then [EvMutate (SetActiveChallenge (Some (CommitCall.duelId call)));
              EvMutate (SetDuelistId (CommitCall.duelistId call));
              EvMutate (StoreCommitted (CommitCall.duelId call)
                          (commit_secret sdk w call));
              EvSleep 3000]
        else []).
Proof.
  rewrite commit_moves_run. unfold confirms.
  destruct (chain w _) as [e | r]; [reflexivity |].
  destruct (has_events r); reflexivity.
Qed.

(** C3, counterexample: the moves [11, 11] are two values, out of range and
    colliding; commit_moves submits their hash to the chain and succeeds. *)
Lemma commit_moves_submits_invalid_moves :
  valid_moves (CommitCall.moves invalid_commit) = false /\
  writes_of
    (trace_of (run (confirming_world 222)
                 (commit_moves demo_sdk invalid_commit) (initial_state "0xabc")))
  = [EvWrite {| contractAddress := "0x6a";
                entrypoint := "commit_moves";
                calldata := [ArgStr "3"; ArgStr "9"; ArgStr "0x342be"] |}] /\
  value_of (run (confirming_world 222)
              (commit_moves demo_sdk invalid_commit) (initial_state "0xabc"))
  = inr (Success "Moves successfully committed"
           {| CommitPayload.salt := "0xde";
              CommitPayload.moves := [11; 11];
              CommitPayload.hash := "0x342be";
              CommitPayload.transaction := confirmed |}).
Proof. rewrite !commit_moves_run. repeat split; reflexivity. Qed.

(** C3, amended: commit_moves does not inspect the move tuple.  For every
    list of numbers, valid or not, it submits exactly one external write, the
    commit of the hash of those moves, and it fails only with the failure of
    that write: the rejection message of the chain, or the missing events. *)
Theorem commit_moves_no_local_validation
    (sdk : Sdk) (w : World) (call : CommitCall.t) (st : PistolsState) :
  writes_of (trace_of (run w (commit_moves sdk call) st))
  = [EvWrite (commit_request sdk w call)] /\
  value_of (run w (commit_moves sdk call) st)
  = inr match chain w (commit_request sdk w call) with
        | WriteRejected e => Failure e "Failed to commit moves"
        | WriteResolved r =>
            if has_events r then
              Success "Moves successfully committed"
                {| CommitPayload.salt := bigintToHex sdk (rand w 0xFFFFFFFF);
                   CommitPayload.moves := CommitCall.moves call;
                   CommitPayload.hash :=
                     bigintToHex sdk
                       (make_moves_hash sdk (rand w 0xFFFFFFFF)
                          (CommitCall.moves call));
                   CommitPayload.transaction := r |}
            else Failure "Commit transaction did not emit events"
                   "Failed to commit moves"
        end.
Proof.
  rewrite commit_moves_run.
  destruct (chain w _) as [e | r]; [split; reflexivity |].
  destruct (has_events r); split; reflexivity.
Qed.

(** ** accept_challenge *)

(** The run of accept_challenge, case by case on the answer of the chain. *)
Lemma accept_challenge_run sdk w call st :
  run w (accept_challenge sdk call) st =
  match chain w (accept_request sdk call) with
  | WriteRejected e =>
      ([EvWrite (accept_request sdk call)], st,
       inr (Failure e "Failed to accept challenge"))
  | WriteResolved r =>
      ([EvWrite (accept_request sdk call);
        EvSleep 3000;
        EvMutate (SetActiveChallenge (Some (AcceptCall.challengeId call)));
        EvMutate (SetDuelistId (AcceptCall.duelistId call));
        EvMutate (SetChallengeState InProgress);
        EvMutate
          (SetActiveChallenges
             (map (fun c =>
                     if bool_decide
                          (duel_id (node c)
                           = Some (AcceptCall.challengeId call))
                     then accepted_by (AcceptCall.duelistId call) c
                     else c)
                (activeChallenges st)))],
       accepted_state call st,
       inr (Success "Challenge successfully accepted"
              {| AcceptPayload.transaction := r |}))
  end.
Proof.
  unfold accept_challenge, accept_request, accepted_state. cbn.
  destruct (chain w _) as [e | r]; reflexivity.
Qed.

(** C4, counterexample: at time 200 challenge 5 is past its deadline 100 and
    duelist 9 is engaged in duel 4; accepting challenge 5 with duelist 9
    submits the reply to the chain and reports success. *)
Lemma accept_challenge_submits_without_guards :
  activeChallenges engaged_state
  = [with_duelist_id running_node "1"; with_duelist_id expired_node "8"] /\
  expired (clock engaged_world / 1000) (with_duelist_id expired_node "8")
  = true /\
  is_busy "9" (activeChallenges engaged_state) = true /\
  writes_of
    (trace_of (run engaged_world
                 (accept_challenge demo_sdk late_accept) engaged_state))
  = [EvWrite {| contractAddress := "0xd0";
                entrypoint := "reply_duel";
                calldata := [ArgStr "9"; ArgStr "5"; ArgStr "1"] |}] /\
  value_of (run engaged_world
              (accept_challenge demo_sdk late_accept) engaged_state)
  = inr (Success "Challenge successfully accepted"
           {| AcceptPayload.transaction := confirmed |}).
Proof. rewrite !accept_challenge_run. repeat split; reflexivity. Qed.

(** C4, amended: accept_challenge checks no guard before the external write.
    For every memory and every call it submits exactly one write, the
    on-chain reply, as its first effect, whatever the deadline of the
    challenge and the engagements of the duelist; it fails only when the
    chain rejects that write. *)
Theorem accept_challenge_no_local_guard
    (sdk : Sdk) (w : World) (call : AcceptCall.t) (st : PistolsState) :
  (exists rest,
     trace_of (run w (accept_challenge sdk call) st)
     = EvWrite (accept_request sdk call) :: rest) /\
  writes_of (trace_of (run w (accept_challenge sdk call) st))
  = [EvWrite (accept_request sdk call)] /\
  value_of (run w (accept_challenge sdk call) st)
  = inr match chain w (accept_request sdk call) with
        | WriteRejected e => Failure e "Failed to accept challenge"
        | WriteResolved r =>
            Success "Challenge successfully accepted"
              {| AcceptPayload.transaction := r |}
        end.
Proof.
  rewrite accept_challenge_run.
  destruct (chain w _) as [e | r]; cbn; (split; [eexists; reflexivity |]);
    split; reflexivity.
Qed.

(** ** reveal_moves *)

Lemma store_lookup_js_get (store : SecretStore) key entry :
  store !! key = Some entry -> js_get store key = JsEntry entry.
Proof.
  unfold lookup, SecretStore_lookup.
  destruct (js_get store key); try discriminate. now intros [= ->].
Qed.

(** The run of reveal_moves, case by case on what the store gives for the
    duel id, on [bigintToHex] and on the answer of the chain. *)
Lemma reveal_moves_run sdk w call st :
  run w (reveal_moves sdk call) st =
  let storedMoves := js_get (committedMoves st) (RevealCall.duelId call) in
  if js_truthy storedMoves then
    match hex_of sdk (js_salt storedMoves) with
    | inl error => ([], st, inr (Failure error "Failed to reveal moves"))
    | inr saltHex =>
        let req := reveal_request_of sdk call saltHex (js_moves storedMoves) in
        match chain w req with
        | WriteRejected e =>
            ([EvWrite req], st, inr (Failure e "Failed to reveal moves"))
        | WriteResolved r =>
            if has_events r then
              ([EvWrite req;
                EvMutate (DeleteCommitted (RevealCall.duelId call));
                EvMutate (SetActiveChallenge (Some (RevealCall.duelId call)));
                EvMutate (SetDuelistId (RevealCall.duelistId call));
                EvSleep 3000],
               apply_mutation (SetDuelistId (RevealCall.duelistId call))
                 (apply_mutation
                    (SetActiveChallenge (Some (RevealCall.duelId call)))
                    (apply_mutation
                       (DeleteCommitted (RevealCall.duelId call)) st)),
               inr (Success "Moves successfully revealed"
                      {| RevealPayload.salt := saltHex;
                         RevealPayload.moves := js_moves storedMoves;
                         RevealPayload.transaction := r |}))
            else
              ([EvWrite req], st,
               inr (Failure "Reveal transaction did not emit events"
                      "Failed to reveal moves"))
        end
    end
  else
    ([], st,
     inr (Failure "No committed moves found for this duel"
            "Failed to reveal moves")).
Proof.
  unfold reveal_moves, reveal_request_of, hex_of, bigintToHex_of. cbn.
  destruct (js_truthy _); cbn; [| reflexivity].
  destruct (js_salt _) as [n |]; cbn.
  - destruct (chain w _) as [e | r]; cbn; [reflexivity |].
    destruct (has_events r); reflexivity.
  - destruct (bigintToHex_undefined sdk) as [error | hex]; cbn;
      [reflexivity |].
    destruct (chain w _) as [e | r]; cbn; [reflexivity |].
    destruct (has_events r); reflexivity.
Qed.

Lemma reveal_moves_run_missing sdk w call st :
  js_truthy (js_get (committedMoves st) (RevealCall.duelId call)) = false ->
  run w (reveal_moves sdk call) st
  = ([], st,
     inr (Failure "No committed moves found for this duel"
            "Failed to reveal moves")).
Proof. intros H. rewrite reveal_moves_run. cbn zeta. now rewrite H. Qed.

Lemma reveal_moves_run_stored sdk w call st storedMoves :
  committedMoves st !! RevealCall.duelId call = Some storedMoves ->
  run w (reveal_moves sdk call) st =
  match chain w (reveal_request sdk call storedMoves) with
  | WriteRejected e =>
      ([EvWrite (reveal_request sdk call storedMoves)], st,
       inr (Failure e "Failed to reveal moves"))
  | WriteResolved r =>
      if has_events r then
        ([EvWrite (reveal_request sdk call storedMoves);
          EvMutate (DeleteCommitted (RevealCall.duelId call));
          EvMutate (SetActiveChallenge (Some (RevealCall.duelId call)));
          EvMutate (SetDuelistId (RevealCall.duelistId call));
          EvSleep 3000],
         apply_mutation (SetDuelistId (RevealCall.duelistId call))
           (apply_mutation
              (SetActiveChallenge (Some (RevealCall.duelId call)))
              (apply_mutation (DeleteCommitted (RevealCall.duelId call)) st)),
         inr (Success "Moves successfully revealed"
                {| RevealPayload.salt := bigintToHex sdk (salt storedMoves);
                   RevealPayload.moves := Some (moves storedMoves);
                   RevealPayload.transaction := r |}))
      else
        ([EvWrite (reveal_request sdk call storedMoves)], st,
         inr (Failure "Reveal transaction did not emit events"
                "Failed to reveal moves"))
  end.
Proof.
  intros H. apply store_lookup_js_get in H.
  rewrite reveal_moves_run. cbn zeta. rewrite H. reflexivity.
Qed.

(** C5, at the failing input: the duel id [constructor] has no committed
    move set, in a store that holds nothing at all, yet the lookup finds the
    member of [Object.prototype] of that name and the missing-secret guard
    does not fire.  The handler goes on with an undefined salt and undefined
    moves: where [bigintToHex(undefined)] returns a text it submits the
    reveal write, and where it throws the failure carries that error, not
    the missing-secret one. *)
Theorem reveal_moves_inherited_key
    (sdk : Sdk) (w : World) (playerAddress : string) :
  let st := initial_state playerAddress in
  committedMoves st !! RevealCall.duelId inherited_reveal = None /\
  own (committedMoves st) = ∅ /\
  match bigintToHex_undefined sdk with
  | inl error =>
      run w (reveal_moves sdk inherited_reveal) st
      = ([], st, inr (Failure error "Failed to reveal moves"))
  | inr hex =>
      writes_of (trace_of (run w (reveal_moves sdk inherited_reveal) st))
      = [EvWrite
           {| contractAddress := game_contract_address sdk;
              entrypoint := "reveal_moves";
              calldata :=
                [ArgStr "3"; ArgStr "constructor"; ArgStr hex;
                 ArgUndefined] |}]
  end.
Proof.
  cbn zeta. split; [reflexivity |]. split; [reflexivity |].
  rewrite reveal_moves_run.
  change (js_get (committedMoves (initial_state playerAddress))
            (RevealCall.duelId inherited_reveal))
    with (JsBuiltin "constructor").
  cbn. destruct (bigintToHex_undefined sdk) as [error | hex]; [reflexivity |].
  cbn. destruct (chain w _) as [e | r]; [reflexivity |].
  destruct (has_events r); reflexivity.
Qed.

Example reveal_moves_inherited_key_confirmed :
  run (confirming_world 0) (reveal_moves demo_sdk inherited_reveal)
    (initial_state "0xabc")
  = ([EvWrite {| contractAddress := "0x6a";
                 entrypoint := "reveal_moves";
                 calldata :=
                   [ArgStr "3"; ArgStr "constructor"; ArgStr "0x0";
                    ArgUndefined] |};
      EvMutate (DeleteCommitted "constructor");
      EvMutate (SetActiveChallenge (Some "constructor"));
      EvMutate (SetDuelistId "3");
      EvSleep 3000],
     apply_mutation (SetDuelistId "3")
       (apply_mutation (SetActiveChallenge (Some "constructor"))
          (initial_state "0xabc")),
     inr (Success "Moves successfully revealed"
            {| RevealPayload.salt := "0x0";
               RevealPayload.moves := None;
               RevealPayload.transaction := confirmed |})).
Proof. reflexivity. Qed.

(** C6: when a secret is stored for the duel id, reveal_moves submits the
    stored salt and moves; if the chain confirms (resolves with at least one
    event) the [delete] of the entry comes after the write and the result
    presents exactly the stored salt (as [bigintToHex] prints it) and the
    stored moves; if the write is rejected or emits no event the handler
    fails and the memory, the stored secret included, is unchanged.  The
    [delete] removes the own property of the duel id, so that for every duel
    id but [__proto__] no secret is stored afterwards. *)
Theorem reveal_moves_keeps_secret_until_confirmed
    (sdk : Sdk) (w : World) (call : RevealCall.t) (st : PistolsState)
    (storedMoves : CommittedMoves) :
  committedMoves st !! RevealCall.duelId call = Some storedMoves ->
  let out := run w (reveal_moves sdk call) st in
  let req := reveal_request sdk call storedMoves in
  if confirms w req then
    (exists r,
       chain w req = WriteResolved r /\
       value_of out
       = inr (Success "Moves successfully revealed"
                {| RevealPayload.salt := bigintToHex sdk (salt storedMoves);
                   RevealPayload.moves := Some (moves storedMoves);
                   RevealPayload.transaction := r |})) /\
    trace_of out
    = [EvWrite req;
       EvMutate (DeleteCommitted (RevealCall.duelId call));
       EvMutate (SetActiveChallenge (Some (RevealCall.duelId call)));
       EvMutate (SetDuelistId (RevealCall.duelistId call));
       EvSleep 3000] /\
    committedMoves (memory_of out)
    = delete (RevealCall.duelId call) (committedMoves st) /\
    (RevealCall.duelId call <> "__proto__" ->
     committedMoves (memory_of out) !! RevealCall.duelId call = None)
  else
    (exists error,
       value_of out = inr (Failure error "Failed to reveal moves")) /\
    trace_of out = [EvWrite req] /\
    memory_of out = st /\
    committedMoves (memory_of out) !! RevealCall.duelId call
    = Some storedMoves.
Proof.
  intros H out req. subst out req.
  rewrite (reveal_moves_run_stored sdk w call st storedMoves H).
  unfold confirms. destruct (chain w _) as [e | r]; cbn.
  - repeat split; eauto.
  - destruct (has_events r); cbn; [| repeat split; eauto].
    split; [eauto |]. split; [reflexivity |]. split; [reflexivity |].
    intros Hkey.
    change (js_delete (RevealCall.duelId call) (committedMoves st)
              !! RevealCall.duelId call = None).
    unfold lookup, SecretStore_lookup. rewrite js_get_delete_eq.
    unfold inherited, from_Object_prototype.
    rewrite (bool_decide_eq_false_2 _ Hkey).
    destruct (proto (committedMoves st)); repeat case_bool_decide; reflexivity.
Qed.

Lemma reveal_moves_keeps_secret_until_confirmed_witness :
  committedMoves
    (memory_of (run (rejecting_world 0) (reveal_moves demo_sdk reveal_7)
                  committed_state))
    !! "7" = Some first_secret /\
  committedMoves
    (memory_of (run (confirming_world 0) (reveal_moves demo_sdk reveal_7)
                  committed_state))
  = delete "7" (committedMoves committed_state).
Proof.
  split.
  - apply (reveal_moves_keeps_secret_until_confirmed demo_sdk
             (rejecting_world 0) reveal_7 committed_state first_secret).
    reflexivity.
  - apply (reveal_moves_keeps_secret_until_confirmed demo_sdk
             (confirming_world 0) reveal_7 committed_state first_secret).
    reflexivity.
Defined.

(** ** The sort of fetch_challenges *)

Section ArraySortFacts.
Context {A : Type} (cmp : A -> A -> Z).

Hypothesis cmp_total : forall a b, 0 < cmp a b -> cmp b a <= 0.
Hypothesis cmp_trans :
    forall a b c, cmp a b <= 0 -> cmp b c <= 0 -> cmp a c <= 0.

Lemma insert_by_Permutation x l : Permutation (x :: l) (insert_by cmp x l).
  Proof.
    induction l as [| y l IH]; cbn; [reflexivity |].
    destruct (cmp x y <=? 0); [reflexivity |].
    rewrite perm_swap. now constructor.
  Qed.

Lemma insert_by_Forall (P : A -> Prop) x l :
    P x -> Forall P l -> Forall P (insert_by cmp x l).
  Proof.
    intros Hx Hl. eapply Permutation_Forall; [apply insert_by_Permutation |].
    now constructor.
  Qed.

Lemma insert_by_StronglySorted x l :
    StronglySorted (goes_first cmp) l ->
    StronglySorted (goes_first cmp) (insert_by cmp x l).
  Proof.
    induction 1 as [| y l Hl IH Hy]; cbn.
    - repeat constructor.
    - destruct (Z.leb_spec (cmp x y) 0) as [Hxy | Hxy].
      + constructor; [now constructor |].
        constructor; [exact Hxy |].
        eapply Forall_impl; [exact Hy |].
        intros z Hyz. exact (cmp_trans x y z Hxy Hyz).
      + constructor; [exact IH |].
        apply insert_by_Forall; [| exact Hy].
        apply cmp_total, Hxy.
  Qed.

Lemma array_sort_Permutation l : Permutation l (array_sort cmp l).
  Proof.
    induction l as [| x l IH]; cbn; [reflexivity |].
    rewrite <- insert_by_Permutation. now constructor.
  Qed.

Lemma array_sort_StronglySorted l :
    StronglySorted (goes_first cmp) (array_sort cmp l).
  Proof.
    induction l as [| x l IH]; cbn; [constructor |].
    now apply insert_by_StronglySorted.
  Qed.
End ArraySortFacts.

Section FilterFacts.
Context {A : Type} (f : A -> bool).

Lemma filter_Forall (P : A -> Prop) l :
    Forall P l -> Forall P (List.filter f l).
  Proof.
    induction 1 as [| x l Hx Hl IH]; cbn; [constructor |].
    destruct (f x); [now constructor | exact IH].
  Qed.

Lemma filter_Forall_true l : Forall (fun x => f x = true) (List.filter f l).
  Proof.
    induction l as [| x l IH]; cbn; [constructor |].
    destruct (f x) eqn:E; [now constructor | exact IH].
  Qed.

Lemma filter_StronglySorted (R : A -> A -> Prop) l :
    StronglySorted R l -> StronglySorted R (List.filter f l).
  Proof.
    induction 1 as [| x l Hl IH Hx]; cbn; [constructor |].
    destruct (f x); [| exact IH].
    constructor; [exact IH | now apply filter_Forall].
  Qed.

Lemma filter_Permutation l l' :
    Permutation l l' -> Permutation (List.filter f l) (List.filter f l').
  Proof.
    induction 1 as [| x l l' H IH | x y l | l l' l'' H1 IH1 H2 IH2]; cbn.
    - constructor.
    - destruct (f x); [now constructor | exact IH].
    - destruct (f x), (f y); try reflexivity. apply perm_swap.
    - now transitivity (List.filter f l').
  Qed.
End FilterFacts.

(** A sorted list of elements of [P] is sorted for any order that agrees
    with the first one on [P]. *)
Lemma StronglySorted_on {A : Type} (R R' : A -> A -> Prop) (P : A -> Prop) l :
  (forall a b, P a -> P b -> R a b -> R' a b) ->
  Forall P l -> StronglySorted R l -> StronglySorted R' l.
Proof.
  intros HRR' HP HS. induction HS as [| x l Hl IH Hx]; [constructor |].
  inversion HP as [| ? ? HPx HPl]; subst.
  constructor; [now apply IH |].
  rewrite Forall_forall in *. intros y Hy. apply HRR'; auto.
Qed.

Lemma or_default_zero n : or_default n 0 = n.
Proof. unfold or_default. destruct (Z.eqb_spec n 0); congruence. Qed.

(** What the comparator decides: lower priority number first, then the later
    start first. *)
Lemma compare_challenges_le a b :
  compare_challenges a b <= 0 <->
  statePriority (state (node a)) < statePriority (state (node b)) \/
  (statePriority (state (node a)) = statePriority (state (node b)) /\
   ts_start (timestamps (node b)) <= ts_start (timestamps (node a))).
Proof.
  unfold compare_challenges. rewrite !or_default_zero.
  destruct (Z.eqb_spec
              (statePriority (state (node a)) - statePriority (state (node b)))
              0); cbn; lia.
Qed.

Lemma compare_challenges_total a b :
  0 < compare_challenges a b -> compare_challenges b a <= 0.
Proof.
  intros H. apply compare_challenges_le.
  assert (~ compare_challenges a b <= 0) as Hn by lia.
  rewrite compare_challenges_le in Hn. lia.
Qed.

Lemma compare_challenges_trans a b c :
  compare_challenges a b <= 0 -> compare_challenges b c <= 0 ->
  compare_challenges a c <= 0.
Proof. rewrite !compare_challenges_le. lia. Qed.

Lemma is_active_spec c :
  is_active c = true <->
  state (node c) = InProgress \/ state (node c) = Awaiting.
Proof.
  unfold is_active. rewrite orb_true_iff, !bool_decide_eq_true. reflexivity.
Qed.

Lemma goes_first_active_order a b :
  is_active a = true -> is_active b = true ->
  goes_first compare_challenges a b -> active_order a b.
Proof.
  rewrite !is_active_spec. unfold goes_first, active_order.
  rewrite compare_challenges_le.
  intros [Ha | Ha] [Hb | Hb] H; rewrite Ha, Hb in *; cbn in H;
    first [ left; split; reflexivity | right; split; [reflexivity | lia] | lia ].
Qed.

(** ** fetch_challenges *)

(** The run of fetch_challenges, case by case on the answer of the API. *)
Lemma fetch_challenges_run w call st :
  run w (fetch_challenges call) st =
  let playerAddress := normalizeStarknetAddress (FetchCall.playerAddress call) in
  match api w playerAddress with
  | QueryRejected e =>
      ([EvQuery playerAddress], st,
       inr (Failure e "Failed to fetch challenges"))
  | QueryResolved r =>
      match addressAChallenges r, addressBChallenges r with
      | Some nodesA, Some nodesB =>
          (EvQuery playerAddress
             :: map EvMutate (fetch_mutations (active_subset nodesA nodesB)),
           apply_mutations (fetch_mutations (active_subset nodesA nodesB)) st,
           inr (Success
                  (fetch_message (List.length (fetched nodesA nodesB))
                     (List.length (active_subset nodesA nodesB)))
                  {| FetchPayload.challenges :=
                       array_sort compare_challenges (fetched nodesA nodesB);
                     FetchPayload.activeChallenges :=
                       active_subset nodesA nodesB |}))
      | _, _ =>
          ([EvQuery playerAddress], st,
           inr (Failure "undefined is not iterable"
                  "Failed to fetch challenges"))
      end
  end.
Proof.
  unfold fetch_challenges, fetch_message, active_subset, fetched. cbn.
  destruct (api w _) as [e | [[nodesA |] [nodesB |]]]; cbn; try reflexivity.
  destruct (List.filter is_active _) as [| c active]; cbn; [reflexivity |].
  destruct (bool_decide (state (node c) = InProgress)); reflexivity.
Qed.

(** C7: when the challenge fetch answers with the lists of both sides,
    fetch_challenges succeeds and the active subset it returns holds exactly
    the fetched challenges whose state is InProgress or Awaiting (as many
    times as they were fetched), every InProgress challenge standing before
    every Awaiting one and, within one state, later start timestamps first. *)
Theorem fetch_challenges_active_subset
    (w : World) (call : FetchCall.t) (st : PistolsState)
    (nodesA nodesB : list ChallengeData) :
  api w (normalizeStarknetAddress (FetchCall.playerAddress call))
  = QueryResolved {| addressAChallenges := Some nodesA;
                     addressBChallenges := Some nodesB |} ->
  exists message sorted active,
    value_of (run w (fetch_challenges call) st)
    = inr (Success message
             {| FetchPayload.challenges := sorted;
                FetchPayload.activeChallenges := active |}) /\
    Permutation active (List.filter is_active (fetched nodesA nodesB)) /\
    (forall c,
       In c active <->
       In c (fetched nodesA nodesB) /\
       (state (node c) = InProgress \/ state (node c) = Awaiting)) /\
    StronglySorted active_order active.
Proof.
  intros Hapi. rewrite fetch_challenges_run. cbn zeta. rewrite Hapi. cbn.
  do 3 eexists. split; [reflexivity |].
  assert (Permutation (active_subset nodesA nodesB)
            (List.filter is_active (fetched nodesA nodesB))) as Hperm.
  { unfold active_subset. apply filter_Permutation. symmetry.
    apply array_sort_Permutation. }
  split; [exact Hperm |]. split.
  - intros c. rewrite <- is_active_spec, <- filter_In.
    split; apply Permutation_in; [exact Hperm | symmetry; exact Hperm].
  - unfold active_subset.
    apply (StronglySorted_on (goes_first compare_challenges) active_order
             (fun c => is_active c = true)).
    + apply goes_first_active_order.
    + apply filter_Forall_true.
    + apply filter_StronglySorted, array_sort_StronglySorted.
      * apply compare_challenges_total.
      * apply compare_challenges_trans.
Qed.

Example fetch_challenges_sample_active :
  match value_of (run sample_world (fetch_challenges sample_fetch)
                    (initial_state "0xabc")) with
  | inr (Success _ payload) =>
      map (fun c => (duel_id (node c), duelist_id c))
        (FetchPayload.activeChallenges payload)
  | _ => []
  end
  = [(Some "4", "9"); (Some "2", "6"); (Some "1", "7")].
Proof. reflexivity. Qed.

Lemma fetch_challenges_active_subset_witness :
  exists message sorted active,
    value_of (run sample_world (fetch_challenges sample_fetch)
                (initial_state "0xabc"))
    = inr (Success message
             {| FetchPayload.challenges := sorted;
                FetchPayload.activeChallenges := active |}) /\
    Permutation active
      (List.filter is_active
         (fetched (default [] (addressAChallenges sample_response))
            (default [] (addressBChallenges sample_response)))) /\
    (forall c,
       In c active <->
       In c (fetched (default [] (addressAChallenges sample_response))
               (default [] (addressBChallenges sample_response))) /\
       (state (node c) = InProgress \/ state (node c) = Awaiting)) /\
    StronglySorted active_order active.
Proof.
  apply (fetch_challenges_active_subset sample_world sample_fetch
           (initial_state "0xabc")).
  reflexivity.
Defined.

(** ** The duelist recorded with the stored challenges *)

Lemma fetch_mutations_activeChallenges active st :
  activeChallenges (apply_mutations (fetch_mutations active) st)
  = match active with
    | [] => activeChallenges st
    | _ :: _ => map as_side_a active
    end.
Proof.
  destruct active as [| c active]; [reflexivity |].
  unfold fetch_mutations.
  destruct (bool_decide (state (node c) = InProgress)); reflexivity.
Qed.

Lemma as_side_a_recorded l :
  Forall (fun c => duelist_id c = duelist_id_a (node c)) (map as_side_a l).
Proof. induction l as [| c l IH]; cbn; constructor; [reflexivity | exact IH]. Qed.

Lemma fetch_challenges_side_a w call st :
  side_a_recorded st ->
  side_a_recorded (memory_of (run w (fetch_challenges call) st)).
Proof.
  intros Hst. rewrite fetch_challenges_run. cbn zeta.
  destruct (api w _) as [e | [[nodesA |] [nodesB |]]]; cbn; try exact Hst.
  unfold side_a_recorded, memory_of. cbn.
  rewrite fetch_mutations_activeChallenges.
  destruct (active_subset nodesA nodesB); [exact Hst |].
  apply as_side_a_recorded.
Qed.

Lemma accept_challenge_side_a sdk w call st :
  side_a_recorded st ->
  side_a_recorded (memory_of (run w (accept_challenge sdk call) st)).
Proof.
  intros Hst. rewrite accept_challenge_run.
  destruct (chain w _) as [e | r]; [exact Hst |].
  unfold side_a_recorded, memory_of, accepted_state in *. cbn.
  induction Hst as [| c l Hc Hl IH]; cbn; constructor; [| exact IH].
  destruct (bool_decide _); cbn; exact Hc.
Qed.

Lemma create_challenge_side_a sdk w call st :
  side_a_recorded st ->
  side_a_recorded (memory_of (run w (create_challenge sdk call) st)).
Proof.
  intros Hst. unfold create_challenge. cbn.
  destruct (chain w _) as [e | r]; cbn; [exact Hst |].
  unfold side_a_recorded. cbn. apply Forall_app. split; [exact Hst |].
  repeat constructor.
Qed.

Lemma commit_moves_side_a sdk w call st :
  side_a_recorded st ->
  side_a_recorded (memory_of (run w (commit_moves sdk call) st)).
Proof.
  intros Hst. rewrite commit_moves_run.
  destruct (chain w _) as [e | r]; [exact Hst |].
  destruct (has_events r); exact Hst.
Qed.

Lemma reveal_moves_side_a sdk w call st :
  side_a_recorded st ->
  side_a_recorded (memory_of (run w (reveal_moves sdk call) st)).
Proof.
  intros Hst. rewrite reveal_moves_run. cbn zeta.
  destruct (js_truthy _); [| exact Hst].
  destruct (hex_of sdk _) as [e | saltHex]; [exact Hst |].
  destruct (chain w _) as [e | r]; [exact Hst |].
  destruct (has_events r); exact Hst.
Qed.

Lemma reachable_side_a st : reachable st -> side_a_recorded st.
Proof.
  induction 1 as [addr | w call st _ IH | sdk w call st _ IH
                 | sdk w call st _ IH | sdk w call st _ IH
                 | sdk w call st _ IH].
  - constructor.
  - now apply fetch_challenges_side_a.
  - now apply accept_challenge_side_a.
  - now apply create_challenge_side_a.
  - now apply commit_moves_side_a.
  - now apply reveal_moves_side_a.
Qed.

(** C10: after every successful fetch_challenges, in any memory the agent
    can be in, every challenge stored in [activeChallenges] has its
    [duelist_id] equal to its [duelist_id_a]; when the fetch found active
    challenges the stored list is the returned active subset with each
    [duelist_id] overwritten by [duelist_id_a], the challenges of side B
    (returned with [duelist_id_b]) included. *)
Theorem fetch_challenges_stores_side_a_duelist
    (w : World) (call : FetchCall.t) (st : PistolsState)
    (message : string) (payload : FetchPayload.t) :
  reachable st ->
  value_of (run w (fetch_challenges call) st) = inr (Success message payload) ->
  Forall (fun c => duelist_id c = duelist_id_a (node c))
    (activeChallenges (memory_of (run w (fetch_challenges call) st))) /\
  (FetchPayload.activeChallenges payload <> [] ->
   activeChallenges (memory_of (run w (fetch_challenges call) st))
   = map (fun c => with_duelist_id (node c) (duelist_id_a (node c)))
       (FetchPayload.activeChallenges payload)).
Proof.
  intros Hreach Hok. split.
  - apply fetch_challenges_side_a, reachable_side_a, Hreach.
  - revert Hok. rewrite fetch_challenges_run. cbn zeta.
    destruct (api w _) as [e | [[nodesA |] [nodesB |]]]; cbn;
      try discriminate.
    intros [= _ <-]. cbn. intros Hne. unfold memory_of. cbn.
    rewrite fetch_mutations_activeChallenges.
    destruct (active_subset nodesA nodesB); [contradiction | reflexivity].
Qed.

Lemma fetch_challenges_stores_side_a_duelist_witness :
  Forall (fun c => duelist_id c = duelist_id_a (node c))
    (activeChallenges
       (memory_of (run sample_world (fetch_challenges sample_fetch)
                     (initial_state "0xabc")))) /\
  map (fun c => (duel_id (node c), duelist_id c))
    (activeChallenges
       (memory_of (run sample_world (fetch_challenges sample_fetch)
                     (initial_state "0xabc"))))
  = [(Some "4", "8"); (Some "2", "6"); (Some "1", "7")].
Proof.
  split; [| reflexivity].
  eapply (fetch_challenges_stores_side_a_duelist sample_world sample_fetch
            (initial_state "0xabc")).
  - apply reach_initial.
  - reflexivity.
Defined.

(** ** Address comparisons *)

(** Spellings of one address that differ in case, in leading zeros or in the
    prefix have one normal form. *)
Example normalize_identifies_spellings :
  normalizeStarknetAddress "0x0ABC" = "0xabc" /\
  normalizeStarknetAddress "0x0abc" = "0xabc" /\
  normalizeStarknetAddress "0xABC" = "0xabc" /\
  normalizeStarknetAddress "000abc" = "0xabc".
Proof. repeat split; reflexivity. Qed.

(** C8, at the failing input: analyze_duel_history normalizes the address of
    the call but compares it with [address_a] as the API spelled it.  The
    player 0xABC won duel 12 as challenger with duelist 8; the API spells the
    same address 0x0abc, so the duel map records the player as side B and the
    duel as a loss. *)
Theorem analyze_duel_history_compares_raw_address :
  normalizeStarknetAddress (address_a won_as_challenger)
  = normalizeStarknetAddress "0xABC" /\
  duelMap_entries "0xABC" history_response
  = [(Some "12", {| isPlayerA := false; result := loss |})] /\
  duel_info (normalizeStarknetAddress "0xABC")
    {| duel_id := duel_id won_as_challenger;
       table_id := table_id won_as_challenger;
       premise := premise won_as_challenger;
       quote := quote won_as_challenger;
       address_a := normalizeStarknetAddress (address_a won_as_challenger);
       address_b := address_b won_as_challenger;
       duelist_id_a := duelist_id_a won_as_challenger;
       duelist_id_b := duelist_id_b won_as_challenger;
       state := state won_as_challenger;
       winner := winner won_as_challenger;
       timestamps := timestamps won_as_challenger |}
  = {| isPlayerA := true; result := win |}.
Proof. repeat split; reflexivity. Qed.

(** * Further properties of the code *)

(** ** normalizeStarknetAddress *)

Lemma lower_ascii_idem c : lower_ascii (lower_ascii c) = lower_ascii c.
Proof.
  destruct c as [[] [] [] [] [] [] [] []]; reflexivity.
Qed.

Lemma lower_ascii_zero c : lower_ascii c = "0"%char -> c = "0"%char.
Proof.
  destruct c as [[] [] [] [] [] [] [] []]; cbn; intros H;
    first [reflexivity | discriminate H].
Qed.

Lemma toLowerCase_idem s : toLowerCase (toLowerCase s) = toLowerCase s.
Proof.
  induction s as [| c s IH]; cbn; [reflexivity |].
  now rewrite lower_ascii_idem, IH.
Qed.

Lemma strip_leading_zeros_other c s :
  c <> "0"%char -> strip_leading_zeros (String c s) = String c s.
Proof.
  destruct c as [[] [] [] [] [] [] [] []]; intros H;
    first [reflexivity | contradiction H; reflexivity].
Qed.

Lemma strip_leading_zeros_zero s :
  strip_leading_zeros (String "0" s) = strip_leading_zeros s.
Proof. reflexivity. Qed.

Lemma strip_leading_zeros_idem s :
  strip_leading_zeros (strip_leading_zeros s) = strip_leading_zeros s.
Proof.
  induction s as [| c s IH]; [reflexivity |].
  destruct (ascii_dec c "0") as [-> | Hc].
  - rewrite strip_leading_zeros_zero. exact IH.
  - now rewrite !(strip_leading_zeros_other c s Hc).
Qed.

Lemma strip_leading_zeros_toLowerCase s :
  strip_leading_zeros (toLowerCase s) = toLowerCase (strip_leading_zeros s).
Proof.
  induction s as [| c s IH]; [reflexivity |].
  destruct (ascii_dec c "0") as [-> | Hc].
  - cbn [toLowerCase]. change (lower_ascii "0") with "0"%char.
    rewrite !strip_leading_zeros_zero. exact IH.
  - rewrite (strip_leading_zeros_other c s Hc). cbn [toLowerCase].
    apply strip_leading_zeros_other. intros H. apply Hc, lower_ascii_zero, H.
Qed.

Lemma strip_leading_zeros_zeros k s :
  strip_leading_zeros (zeros k +:+ s) = strip_leading_zeros s.
Proof. induction k as [| k IH]; [reflexivity | exact IH]. Qed.

Lemma length_toLowerCase s :
  String.length (toLowerCase s) = String.length s.
Proof. induction s as [| c s IH]; cbn; congruence. Qed.

Lemma length_strip_leading_zeros s :
  (String.length (strip_leading_zeros s) <= String.length s)%nat.
Proof.
  induction s as [| c s IH]; [reflexivity |].
  destruct (ascii_dec c "0") as [-> | Hc].
  - rewrite strip_leading_zeros_zero. cbn. lia.
  - now rewrite (strip_leading_zeros_other c s Hc).
Qed.

(** The digits of a normal form: what follows [0x]. *)
Lemma normalize_prefixed s :
  normalizeStarknetAddress ("0x" +:+ s)
  = "0x" +:+ toLowerCase (strip_leading_zeros s).
Proof. reflexivity. Qed.

Lemma normalize_nonempty a :
  a <> "" ->
  normalizeStarknetAddress a
  = "0x" +:+ toLowerCase (strip_leading_zeros (strip_0x a)).
Proof. destruct a; [congruence | reflexivity]. Qed.

Lemma normalize_normalize address :
  normalizeStarknetAddress (normalizeStarknetAddress address)
  = normalizeStarknetAddress address.
Proof.
  destruct address as [| c s]; [reflexivity |].
  rewrite (normalize_nonempty (String c s)) by discriminate.
  rewrite normalize_prefixed.
  now rewrite strip_leading_zeros_toLowerCase, strip_leading_zeros_idem,
    toLowerCase_idem.
Qed.

(** X1: normalizing is idempotent: a normalized address is its own normal
    form, for every input string. *)
Theorem normalizeStarknetAddress_idempotent (address : string) :
  normalizeStarknetAddress (normalizeStarknetAddress address)
  = normalizeStarknetAddress address.
Proof. apply normalize_normalize. Qed.

(** X2: zero digits added after the [0x] prefix do not change the normal
    form. *)
Theorem normalizeStarknetAddress_leading_zeros (k : nat) (digits : string) :
  normalizeStarknetAddress ("0x" +:+ zeros k +:+ digits)
  = normalizeStarknetAddress ("0x" +:+ digits).
Proof. now rewrite !normalize_prefixed, strip_leading_zeros_zeros. Qed.

(** X3: after the [0x] prefix the case of the letters does not matter: the
    digits and their lowercase spelling have one normal form. *)
Theorem normalizeStarknetAddress_case (digits : string) :
  normalizeStarknetAddress ("0x" +:+ toLowerCase digits)
  = normalizeStarknetAddress ("0x" +:+ digits).
Proof.
  now rewrite !normalize_prefixed, strip_leading_zeros_toLowerCase,
    toLowerCase_idem.
Qed.

(** X4: the prefix is optional: a non-empty address that does not start
    with [0x] has the normal form of the same text behind [0x]. *)
Theorem normalizeStarknetAddress_prefix_optional (address : string) :
  address <> "" ->
  (forall rest, address <> "0x" +:+ rest) ->
  normalizeStarknetAddress address
  = normalizeStarknetAddress ("0x" +:+ address).
Proof.
  intros Hne Hnp. rewrite (normalize_nonempty address Hne), normalize_prefixed.
  do 3 f_equal.
  destruct address as [| c [| d s]]; [reflexivity | |].
  - destruct c as [[] [] [] [] [] [] [] []]; reflexivity.
  - unfold strip_0x.
    destruct (ascii_dec c "0") as [-> | Hc];
      [destruct (ascii_dec d "x") as [-> | Hd] |].
    + exfalso. now apply (Hnp s).
    + destruct d as [[] [] [] [] [] [] [] []];
        first [reflexivity | contradiction Hd; reflexivity].
    + destruct c as [[] [] [] [] [] [] [] []];
        first [reflexivity | contradiction Hc; reflexivity].
Qed.

Lemma normalizeStarknetAddress_prefix_optional_witness :
  normalizeStarknetAddress "00AbC" = normalizeStarknetAddress ("0x" +:+ "00AbC").
Proof.
  apply (normalizeStarknetAddress_prefix_optional "00AbC").
  - discriminate.
  - intros rest H. discriminate H.
Defined.

(** X5: only the lowercase prefix is recognised: behind an uppercase [0X]
    the [X] is kept as a digit, so the normal form starts with [0xx] and
    differs from the one of the same address written with [0x]. *)
Theorem normalizeStarknetAddress_uppercase_prefix (digits : string) :
  normalizeStarknetAddress ("0X" +:+ digits) = "0xx" +:+ toLowerCase digits /\
  normalizeStarknetAddress ("0X" +:+ digits)
  <> normalizeStarknetAddress ("0x" +:+ digits).
Proof.
  split; [reflexivity |].
  rewrite normalize_prefixed.
  change (normalizeStarknetAddress ("0X" +:+ digits))
    with ("0x" +:+ String "x" (toLowerCase digits)).
  intros H. apply String.app_inj in H.
  apply (f_equal String.length) in H. cbn [String.length] in H.
  rewrite !length_toLowerCase in H.
  pose proof (length_strip_leading_zeros digits). lia.
Qed.

(** X6: the normal form of a non-empty address is [0x] followed by digits
    that have no leading zero and that lowercasing leaves unchanged. *)
Theorem normalizeStarknetAddress_canonical (address : string) :
  address <> "" ->
  exists digits,
    normalizeStarknetAddress address = "0x" +:+ digits /\
    strip_leading_zeros digits = digits /\
    toLowerCase digits = digits.
Proof.
  intros Hne. rewrite (normalize_nonempty address Hne).
  eexists. split; [reflexivity |]. split.
  - now rewrite strip_leading_zeros_toLowerCase, strip_leading_zeros_idem.
  - apply toLowerCase_idem.
Qed.

Lemma normalizeStarknetAddress_canonical_witness :
  exists digits,
    normalizeStarknetAddress "0x00AbC" = "0x" +:+ digits /\
    strip_leading_zeros digits = digits /\
    toLowerCase digits = digits.
Proof.
  apply (normalizeStarknetAddress_canonical "0x00AbC"). discriminate.
Defined.

(** ** commit_moves and reveal_moves together *)

Lemma confirms_resolved w req :
  confirms w req = true ->
  exists r, chain w req = WriteResolved r /\ has_events r = true.
Proof.
  unfold confirms. destruct (chain w req) as [e | r]; [discriminate |].
  intros H. now exists r.
Qed.

Lemma commit_moves_confirmed_store sdk w call st :
  confirms w (commit_request sdk w call) = true ->
  committedMoves (memory_of (run w (commit_moves sdk call) st))
  = <[CommitCall.duelId call := commit_secret sdk w call]> (committedMoves st).
Proof.
  intros [r [Hr He]]%confirms_resolved.
  rewrite commit_moves_run, Hr, He. reflexivity.
Qed.

(** X7: the round trip.  After a confirmed commit_moves for a duel, a
    reveal_moves for that duel which the chain confirms submits the salt drawn
    by the commit and the committed moves, unchanged and in order, and
    returns them; this holds for every duel id.  For every duel id but
    [__proto__] it leaves the store as it was before the commit, without the
    own property of the duel. *)
Theorem commit_then_reveal_round_trip
    (sdk : Sdk) (w1 w2 : World) (commit : CommitCall.t) (reveal : RevealCall.t)
    (st : PistolsState) :
  RevealCall.duelId reveal = CommitCall.duelId commit ->
  confirms w1 (commit_request sdk w1 commit) = true ->
  confirms w2 (reveal_request sdk reveal (commit_secret sdk w1 commit)) = true ->
  let committed := memory_of (run w1 (commit_moves sdk commit) st) in
  let out := run w2 (reveal_moves sdk reveal) committed in
  writes_of (trace_of out)
  = [EvWrite
       {| contractAddress := game_contract_address sdk;
          entrypoint := "reveal_moves";
          calldata :=
            [ArgStr (RevealCall.duelistId reveal);
             ArgStr (CommitCall.duelId commit);
             ArgStr (bigintToHex sdk (rand w1 0xFFFFFFFF));
             ArgNums (CommitCall.moves commit)] |}] /\
  (exists r,
     value_of out
     = inr (Success "Moves successfully revealed"
              {| RevealPayload.salt := bigintToHex sdk (rand w1 0xFFFFFFFF);
                 RevealPayload.moves := Some (CommitCall.moves commit);
                 RevealPayload.transaction := r |})) /\
  (CommitCall.duelId commit <> "__proto__" ->
   committedMoves (memory_of out)
   = delete (CommitCall.duelId commit) (committedMoves st)).
Proof.
  intros Hid Hc1 Hc2 committed out. subst out.
  pose proof (commit_moves_confirmed_store sdk w1 commit st Hc1) as Hm.
  fold committed in Hm. clearbody committed.
  assert (committedMoves committed !! RevealCall.duelId reveal
          = Some (commit_secret sdk w1 commit)) as Hstored.
  { rewrite Hm, Hid. apply store_lookup_insert_eq. }
  rewrite (reveal_moves_run_stored sdk w2 reveal _ _ Hstored).
  destruct (confirms_resolved _ _ Hc2) as [r [Hr He]]. rewrite Hr, He.
  split; [| split].
  - unfold reveal_request. rewrite Hid. reflexivity.
  - exists r. reflexivity.
  - intros Hkey. cbn. rewrite Hm, Hid. now apply js_delete_set.
Qed.

Lemma commit_then_reveal_round_trip_witness :
  (exists r,
     value_of (run (confirming_world 0) (reveal_moves demo_sdk reveal_7)
                 (memory_of (run (confirming_world 111)
                               (commit_moves demo_sdk first_commit)
                               (initial_state "0xabc"))))
     = inr (Success "Moves successfully revealed"
              {| RevealPayload.salt := "0x6f";
                 RevealPayload.moves := Some [3; 7; 1; 2];
                 RevealPayload.transaction := r |})) /\
  committedMoves
    (memory_of (run (confirming_world 0) (reveal_moves demo_sdk reveal_7)
                  (memory_of (run (confirming_world 111)
                                (commit_moves demo_sdk first_commit)
                                (initial_state "0xabc")))))
  = delete "7" ∅.
Proof.
  pose proof (commit_then_reveal_round_trip demo_sdk (confirming_world 111)
                (confirming_world 0) first_commit reveal_7
                (initial_state "0xabc") eq_refl eq_refl eq_refl)
    as [_ [Hvalue Hstore]].
  split; [exact Hvalue |]. apply Hstore. discriminate.
Defined.

(** X8: commit_moves for a duel id other than [__proto__] changes what the
    store gives for its own duel id only: every other key reads the same
    before and after, whatever the chain answers. *)
Theorem commit_moves_other_duels
    (sdk : Sdk) (w : World) (call : CommitCall.t) (st : PistolsState)
    (other : string) :
  CommitCall.duelId call <> "__proto__" ->
  other <> CommitCall.duelId call ->
  js_get (committedMoves (memory_of (run w (commit_moves sdk call) st))) other
  = js_get (committedMoves st) other.
Proof.
  intros Hkey Hne. rewrite commit_moves_run.
  destruct (chain w _) as [e | r]; [reflexivity |].
  destruct (has_events r); [| reflexivity].
  cbn. now apply js_get_set_ne.
Qed.

Lemma commit_moves_other_duels_witness :
  js_get
    (committedMoves
       (memory_of (run (confirming_world 222)
                     (commit_moves demo_sdk fresh_commit) committed_state)))
    "7"
  = js_get (committedMoves committed_state) "7".
Proof.
  apply (commit_moves_other_duels demo_sdk (confirming_world 222) fresh_commit
           committed_state "7"); discriminate.
Defined.

(** X9: reveal_moves touches the secret of its own duel only: the entry of
    every other duel id is the same before and after, whatever is stored and
    whatever the chain answers. *)
Theorem reveal_moves_other_duels
    (sdk : Sdk) (w : World) (call : RevealCall.t) (st : PistolsState)
    (other : string) :
  other <> RevealCall.duelId call ->
  committedMoves (memory_of (run w (reveal_moves sdk call) st)) !! other
  = committedMoves st !! other.
Proof.
  intros Hne. rewrite reveal_moves_run. cbn zeta.
  destruct (js_truthy _); [| reflexivity].
  destruct (hex_of _ _) as [error | saltHex]; [reflexivity |].
  destruct (chain w _) as [e | r]; [reflexivity |].
  destruct (has_events r); [| reflexivity].
  cbn. now apply store_lookup_delete_ne.
Qed.

Lemma reveal_moves_other_duels_witness :
  committedMoves
    (memory_of (run (confirming_world 0)
                  (reveal_moves demo_sdk
                     {| RevealCall.playerAddress := "0xabc";
                        RevealCall.duelistId := "3";
                        RevealCall.duelId := "9" |})
                  committed_state)) !! "7"
  = committedMoves committed_state !! "7".
Proof.
  apply (reveal_moves_other_duels demo_sdk (confirming_world 0) _
           committed_state "7").
  discriminate.
Defined.

(** X10: a confirmed reveal consumes the secret of a duel id that inherits
    nothing truthy from the prototype of the store: a further reveal_moves
    for the same duel finds nothing, fails with the missing-secret error and
    submits no write, whatever the chain would answer. *)
Theorem reveal_moves_twice
    (sdk : Sdk) (w w' : World) (call call' : RevealCall.t) (st : PistolsState)
    (storedMoves : CommittedMoves) :
  committedMoves st !! RevealCall.duelId call = Some storedMoves ->
  js_truthy (inherited (committedMoves st) (RevealCall.duelId call)) = false ->
  confirms w (reveal_request sdk call storedMoves) = true ->
  RevealCall.duelId call' = RevealCall.duelId call ->
  let revealed := memory_of (run w (reveal_moves sdk call) st) in
  run w' (reveal_moves sdk call') revealed
  = ([], revealed,
     inr (Failure "No committed moves found for this duel"
            "Failed to reveal moves")).
Proof.
  intros Hs Hinh Hc Hid revealed. subst revealed.
  apply reveal_moves_run_missing. rewrite Hid.
  rewrite (reveal_moves_run_stored sdk w call st storedMoves Hs).
  destruct (confirms_resolved _ _ Hc) as [r [Hr He]]. rewrite Hr, He.
  cbn. now rewrite js_get_delete_eq.
Qed.

Lemma reveal_moves_twice_witness :
  run (confirming_world 0) (reveal_moves demo_sdk reveal_7)
    (memory_of (run (confirming_world 0) (reveal_moves demo_sdk reveal_7)
                  committed_state))
  = ([],
     memory_of (run (confirming_world 0) (reveal_moves demo_sdk reveal_7)
                  committed_state),
     inr (Failure "No committed moves found for this duel"
            "Failed to reveal moves")).
Proof.
  apply (reveal_moves_twice demo_sdk (confirming_world 0) (confirming_world 0)
           reveal_7 reveal_7 committed_state first_secret);
    reflexivity.
Defined.

(** X11: in a confirmed commit the hash submitted to the chain, the hash
    returned to the caller and the hash stored are one value, the hash of the
    stored salt and the stored moves. *)
Theorem commit_moves_one_hash
    (sdk : Sdk) (w : World) (call : CommitCall.t) (st : PistolsState) :
  confirms w (commit_request sdk w call) = true ->
  let out := run w (commit_moves sdk call) st in
  exists stored r,
    committedMoves (memory_of out) !! CommitCall.duelId call = Some stored /\
    hash stored = make_moves_hash sdk (salt stored) (moves stored) /\
    writes_of (trace_of out)
    = [EvWrite
         {| contractAddress := game_contract_address sdk;
            entrypoint := "commit_moves";
            calldata :=
              [ArgStr (CommitCall.duelistId call);
               ArgStr (CommitCall.duelId call);
               ArgStr (bigintToHex sdk (hash stored))] |}] /\
    value_of out
    = inr (Success "Moves successfully committed"
             {| CommitPayload.salt := bigintToHex sdk (salt stored);
                CommitPayload.moves := moves stored;
                CommitPayload.hash := bigintToHex sdk (hash stored);
                CommitPayload.transaction := r |}).
Proof.
  intros Hc out. subst out.
  destruct (confirms_resolved _ _ Hc) as [r [Hr He]].
  exists (commit_secret sdk w call), r.
  rewrite commit_moves_run, Hr, He. cbn.
  repeat split. apply store_lookup_insert_eq.
Qed.

Lemma commit_moves_one_hash_witness :
  exists stored r,
    committedMoves committed_state !! "7" = Some stored /\
    hash stored = make_moves_hash demo_sdk (salt stored) (moves stored) /\
    writes_of
      (trace_of (run (confirming_world 111)
                   (commit_moves demo_sdk first_commit)
                   (initial_state "0x0ABC")))
    = [EvWrite
         {| contractAddress := "0x6a";
            entrypoint := "commit_moves";
            calldata :=
              [ArgStr "3"; ArgStr "7";
               ArgStr (bigintToHex demo_sdk (hash stored))] |}] /\
    value_of (run (confirming_world 111) (commit_moves demo_sdk first_commit)
                (initial_state "0x0ABC"))
    = inr (Success "Moves successfully committed"
             {| CommitPayload.salt := bigintToHex demo_sdk (salt stored);
                CommitPayload.moves := moves stored;
                CommitPayload.hash := bigintToHex demo_sdk (hash stored);
                CommitPayload.transaction := r |}).
Proof.
  apply (commit_moves_one_hash demo_sdk (confirming_world 111) first_commit
           (initial_state "0x0ABC")).
  reflexivity.
Defined.

(** ** accept_challenge: what it changes *)

(** X12: accepting a challenge id that is not among the stored challenges
    still submits the reply and, when the chain resolves it, reports success:
    the stored list is left as it was while [activeChallenge] points at the
    unknown id with state InProgress. *)
Theorem accept_challenge_unknown_id
    (sdk : Sdk) (w : World) (call : AcceptCall.t) (st : PistolsState)
    (r : TxResponse) :
  Forall (fun c => duel_id (node c) <> Some (AcceptCall.challengeId call))
    (activeChallenges st) ->
  chain w (accept_request sdk call) = WriteResolved r ->
  let out := run w (accept_challenge sdk call) st in
  value_of out
  = inr (Success "Challenge successfully accepted"
           {| AcceptPayload.transaction := r |}) /\
  activeChallenges (memory_of out) = activeChallenges st /\
  activeChallenge (memory_of out) = Some (AcceptCall.challengeId call) /\
  challengeState (memory_of out) = Some InProgress /\
  duelistId (memory_of out) = AcceptCall.duelistId call.
Proof.
  intros Hunknown Hr out. subst out. rewrite accept_challenge_run, Hr.
  repeat split. unfold memory_of, accepted_state. cbn.
  induction Hunknown as [| c l Hc Hl IH]; cbn; [reflexivity |].
  rewrite IH. now rewrite bool_decide_eq_false_2.
Qed.

Lemma accept_challenge_unknown_id_witness :
  value_of (run engaged_world (accept_challenge demo_sdk unknown_accept)
              engaged_state)
  = inr (Success "Challenge successfully accepted"
           {| AcceptPayload.transaction := confirmed |}) /\
  activeChallenges
    (memory_of (run engaged_world (accept_challenge demo_sdk unknown_accept)
                  engaged_state))
  = activeChallenges engaged_state /\
  activeChallenge
    (memory_of (run engaged_world (accept_challenge demo_sdk unknown_accept)
                  engaged_state))
  = Some "77" /\
  challengeState
    (memory_of (run engaged_world (accept_challenge demo_sdk unknown_accept)
                  engaged_state))
  = Some InProgress /\
  duelistId
    (memory_of (run engaged_world (accept_challenge demo_sdk unknown_accept)
                  engaged_state))
  = "9".
Proof.
  apply (accept_challenge_unknown_id demo_sdk engaged_world unknown_accept
           engaged_state confirmed).
  - repeat constructor; discriminate.
  - reflexivity.
Defined.

(** X13: a resolved accept keeps the stored challenges in place: entry by
    entry the duel id, both addresses, the duelist of side A, the recorded
    duelist and the timestamps are unchanged; the entries with the accepted
    id become InProgress with the supplied duelist on side B, all the others
    are untouched. *)
Theorem accept_challenge_entries
    (sdk : Sdk) (w : World) (call : AcceptCall.t) (st : PistolsState)
    (r : TxResponse) :
  chain w (accept_request sdk call) = WriteResolved r ->
  Forall2
    (accepted_entry (AcceptCall.challengeId call) (AcceptCall.duelistId call))
    (activeChallenges st)
    (activeChallenges (memory_of (run w (accept_challenge sdk call) st))).
Proof.
  intros Hr. rewrite accept_challenge_run, Hr.
  unfold memory_of, accepted_state. cbn.
  induction (activeChallenges st) as [| c l IH]; cbn; constructor; [| exact IH].
  unfold accepted_entry.
  destruct (bool_decide_reflect
              (duel_id (node c) = Some (AcceptCall.challengeId call)))
    as [Hid | Hid]; cbn; repeat split; auto; intros; contradiction.
Qed.

Lemma accept_challenge_entries_witness :
  Forall2 (accepted_entry "5" "9")
    (activeChallenges engaged_state)
    (activeChallenges
       (memory_of (run engaged_world (accept_challenge demo_sdk late_accept)
                     engaged_state))).
Proof.
  apply (accept_challenge_entries demo_sdk engaged_world late_accept
           engaged_state confirmed).
  reflexivity.
Defined.

(** ** create_challenge *)

Lemma create_challenge_run sdk w call st :
  run w (create_challenge sdk call) st =
  match chain w (create_request sdk call) with
  | WriteRejected e =>
      ([EvWrite (create_request sdk call)], st,
       inr (Failure e "Failed to create challenge"))
  | WriteResolved r =>
      ([EvWrite (create_request sdk call);
        EvSleep 3000;
        EvMutate (PushActiveChallenge (new_challenge sdk w call r))],
       apply_mutation (PushActiveChallenge (new_challenge sdk w call r)) st,
       inr (Success
              ("Challenge successfully created to "
                 +:+ normalizeStarknetAddress (CreateCall.challengedAddress call))
              {| CreatePayload.transaction := r;
                 CreatePayload.challenge := new_challenge sdk w call r |}))
  end.
Proof.
  unfold create_challenge, create_request, new_challenge. cbn.
  destruct (chain w _) as [e | r]; reflexivity.
Qed.

(** X14: whenever the chain resolves the create_duel write, with or without
    events, create_challenge reports success and appends exactly one
    challenge to the stored list: Awaiting, between the normalized addresses
    of the player and of the challenged party, with the supplied duelist on
    side A, nobody on side B, the clock in seconds as start, and as duel id
    the first datum of the first event, or none when there is none. *)
Theorem create_challenge_appends
    (sdk : Sdk) (w : World) (call : CreateCall.t) (st : PistolsState)
    (r : TxResponse) :
  chain w (create_request sdk call) = WriteResolved r ->
  let out := run w (create_challenge sdk call) st in
  exists c,
    activeChallenges (memory_of out) = activeChallenges st ++ [c] /\
    value_of out
    = inr (Success
             ("Challenge successfully created to "
                +:+ normalizeStarknetAddress (CreateCall.challengedAddress call))
             {| CreatePayload.transaction := r;
                CreatePayload.challenge := c |}) /\
    duel_id (node c) = first_event_datum r /\
    state (node c) = Awaiting /\
    address_a (node c)
    = normalizeStarknetAddress (CreateCall.playerAddress call) /\
    address_b (node c)
    = normalizeStarknetAddress (CreateCall.challengedAddress call) /\
    duelist_id c = CreateCall.duelistId call /\
    duelist_id_a (node c) = CreateCall.duelistId call /\
    duelist_id_b (node c) = "" /\
    ts_start (timestamps (node c)) = clock w / 1000.
Proof.
  intros Hr out. subst out. rewrite create_challenge_run, Hr.
  exists (new_challenge sdk w call r). repeat split.
Qed.

Lemma create_challenge_appends_witness :
  exists c,
    activeChallenges
      (memory_of (run silent_world (create_challenge demo_sdk sample_create)
                    (initial_state "0xabc")))
    = [c] /\
    duel_id (node c) = None /\
    address_a (node c) = "0xabc" /\
    address_b (node c) = "0xdef" /\
    ts_start (timestamps (node c)) = 200.
Proof.
  destruct (create_challenge_appends demo_sdk silent_world sample_create
              (initial_state "0xabc") {| events := None |} eq_refl)
    as [c [Hl [_ [Hid [_ [Ha [Hb [_ [_ [_ Hts]]]]]]]]]].
  exists c. repeat split; assumption.
Defined.

(** ** fetch_challenges: the whole answer and the memory *)

Lemma active_subset_Permutation nodesA nodesB :
  Permutation (active_subset nodesA nodesB)
    (List.filter is_active (fetched nodesA nodesB)).
Proof.
  unfold active_subset. apply filter_Permutation. symmetry.
  apply array_sort_Permutation.
Qed.

Lemma active_subset_In nodesA nodesB c :
  In c (active_subset nodesA nodesB) <->
  In c (fetched nodesA nodesB) /\ is_active c = true.
Proof.
  rewrite <- filter_In.
  split; apply Permutation_in;
    [| symmetry]; apply active_subset_Permutation.
Qed.

Lemma active_subset_sorted nodesA nodesB :
  StronglySorted active_order (active_subset nodesA nodesB).
Proof.
  unfold active_subset.
  apply (StronglySorted_on (goes_first compare_challenges) active_order
           (fun c => is_active c = true)).
  - apply goes_first_active_order.
  - apply filter_Forall_true.
  - apply filter_StronglySorted, array_sort_StronglySorted.
    + apply compare_challenges_total.
    + apply compare_challenges_trans.
Qed.

Lemma fetch_challenges_run_resolved w call st nodesA nodesB :
  api w (normalizeStarknetAddress (FetchCall.playerAddress call))
  = QueryResolved {| addressAChallenges := Some nodesA;
                     addressBChallenges := Some nodesB |} ->
  run w (fetch_challenges call) st
  = (EvQuery (normalizeStarknetAddress (FetchCall.playerAddress call))
       :: map EvMutate (fetch_mutations (active_subset nodesA nodesB)),
     apply_mutations (fetch_mutations (active_subset nodesA nodesB)) st,
     inr (Success
            (fetch_message (List.length (fetched nodesA nodesB))
               (List.length (active_subset nodesA nodesB)))
            {| FetchPayload.challenges :=
                 array_sort compare_challenges (fetched nodesA nodesB);
               FetchPayload.activeChallenges :=
                 active_subset nodesA nodesB |})).
Proof.
  intros Hapi. rewrite fetch_challenges_run. cbn zeta. rewrite Hapi.
  reflexivity.
Qed.

(** X15: the list of all challenges that fetch_challenges returns is a
    rearrangement of what the two halves of the query answered, sorted by the
    priority of the state (InProgress, Awaiting, Resolved, Draw, Refused,
    Withdrawn, Expired, Null) and, within one state, later starts first. *)
Theorem fetch_challenges_all_sorted
    (w : World) (call : FetchCall.t) (st : PistolsState)
    (nodesA nodesB : list ChallengeData) :
  api w (normalizeStarknetAddress (FetchCall.playerAddress call))
  = QueryResolved {| addressAChallenges := Some nodesA;
                     addressBChallenges := Some nodesB |} ->
  exists message payload,
    value_of (run w (fetch_challenges call) st)
    = inr (Success message payload) /\
    Permutation (FetchPayload.challenges payload) (fetched nodesA nodesB) /\
    StronglySorted priority_order (FetchPayload.challenges payload).
Proof.
  intros Hapi. rewrite (fetch_challenges_run_resolved w call st _ _ Hapi).
  do 2 eexists. split; [reflexivity |]. cbn. split.
  - symmetry. apply array_sort_Permutation.
  - eapply (StronglySorted_on (goes_first compare_challenges) priority_order
              (fun _ => True)).
    + intros a b _ _ H. apply compare_challenges_le, H.
    + apply Forall_forall. intros; exact I.
    + apply array_sort_StronglySorted.
      * apply compare_challenges_total.
      * apply compare_challenges_trans.
Qed.

Lemma fetch_challenges_all_sorted_witness :
  exists message payload,
    value_of (run sample_world (fetch_challenges sample_fetch)
                (initial_state "0xabc"))
    = inr (Success message payload) /\
    Permutation (FetchPayload.challenges payload)
      (fetched (default [] (addressAChallenges sample_response))
         (default [] (addressBChallenges sample_response))) /\
    StronglySorted priority_order (FetchPayload.challenges payload).
Proof.
  apply (fetch_challenges_all_sorted sample_world sample_fetch
           (initial_state "0xabc")).
  reflexivity.
Defined.

(** X16: when none of the fetched challenges is InProgress or Awaiting the
    fetch succeeds with an empty active subset and assigns nothing: the whole
    memory, the previously stored active challenges included, stays as it
    was. *)
Theorem fetch_challenges_nothing_active
    (w : World) (call : FetchCall.t) (st : PistolsState)
    (nodesA nodesB : list ChallengeData) :
  api w (normalizeStarknetAddress (FetchCall.playerAddress call))
  = QueryResolved {| addressAChallenges := Some nodesA;
                     addressBChallenges := Some nodesB |} ->
  Forall (fun n => state n <> InProgress /\ state n <> Awaiting)
    (nodesA ++ nodesB) ->
  let out := run w (fetch_challenges call) st in
  memory_of out = st /\
  trace_of out
  = [EvQuery (normalizeStarknetAddress (FetchCall.playerAddress call))] /\
  exists message sorted,
    value_of out
    = inr (Success message
             {| FetchPayload.challenges := sorted;
                FetchPayload.activeChallenges := [] |}).
Proof.
  intros Hapi Hnone out. subst out.
  rewrite (fetch_challenges_run_resolved w call st _ _ Hapi).
  assert (active_subset nodesA nodesB = []) as ->.
  { destruct (active_subset nodesA nodesB) as [| c l] eqn:E; [reflexivity |].
    assert (In c (active_subset nodesA nodesB)) as Hin
      by (rewrite E; left; reflexivity).
    apply active_subset_In in Hin. destruct Hin as [Hin Hact].
    apply is_active_spec in Hact. exfalso.
    unfold fetched in Hin. rewrite in_app_iff, !in_map_iff in Hin.
    rewrite Forall_forall in Hnone.
    destruct Hin as [[n [<- Hn]] | [n [<- Hn]]];
      (specialize (Hnone n); cbn in Hact;
       rewrite list_elem_of_In, in_app_iff in Hnone;
       destruct Hnone as [H1 H2]; [tauto |]; destruct Hact; contradiction). }
  repeat split. do 2 eexists. reflexivity.
Qed.

Lemma fetch_challenges_nothing_active_witness :
  memory_of (run finished_world (fetch_challenges sample_fetch) engaged_state)
  = engaged_state /\
  trace_of (run finished_world (fetch_challenges sample_fetch) engaged_state)
  = [EvQuery (normalizeStarknetAddress (FetchCall.playerAddress sample_fetch))] /\
  exists message sorted,
    value_of (run finished_world (fetch_challenges sample_fetch) engaged_state)
    = inr (Success message
             {| FetchPayload.challenges := sorted;
                FetchPayload.activeChallenges := [] |}).
Proof.
  apply (fetch_challenges_nothing_active finished_world sample_fetch
           engaged_state
           (default [] (addressAChallenges finished_response))
           (default [] (addressBChallenges finished_response))).
  - reflexivity.
  - repeat constructor; discriminate.
Defined.

(** X17: when some fetched challenge is active, the challenge that
    fetch_challenges makes current is an active fetched challenge that no
    other active one outranks (InProgress before Awaiting, then the latest
    start): its duel id and state go to [activeChallenge] and
    [challengeState], and [duelistId] becomes its side-A duelist when it is
    InProgress and is left alone when it is Awaiting. *)
Theorem fetch_challenges_current
    (w : World) (call : FetchCall.t) (st : PistolsState)
    (nodesA nodesB : list ChallengeData) (c : Challenge) :
  api w (normalizeStarknetAddress (FetchCall.playerAddress call))
  = QueryResolved {| addressAChallenges := Some nodesA;
                     addressBChallenges := Some nodesB |} ->
  In c (fetched nodesA nodesB) ->
  is_active c = true ->
  let after := memory_of (run w (fetch_challenges call) st) in
  exists current,
    In current (fetched nodesA nodesB) /\
    is_active current = true /\
    (forall c', In c' (fetched nodesA nodesB) -> is_active c' = true ->
                active_order current c') /\
    activeChallenge after = duel_id (node current) /\
    challengeState after = Some (state (node current)) /\
    duelistId after
    = (if bool_decide (state (node current) = InProgress)
       then duelist_id_a (node current) else duelistId st).
Proof.
  intros Hapi Hin Hact after. subst after.
  rewrite (fetch_challenges_run_resolved w call st _ _ Hapi).
  assert (In c (active_subset nodesA nodesB)) as Hc
    by (apply active_subset_In; split; assumption).
  pose proof (active_subset_sorted nodesA nodesB) as Hsorted.
  pose proof (active_subset_In nodesA nodesB) as Hmem.
  destruct (active_subset nodesA nodesB) as [| current rest];
    [destruct Hc |].
  exists current.
  destruct (proj1 (Hmem current) (or_introl eq_refl)) as [Hcin Hcact].
  split; [exact Hcin |]. split; [exact Hcact |]. split.
  - intros c' Hin' Hact'.
    destruct (proj2 (Hmem c') (conj Hin' Hact')) as [<- | Hrest].
    + right. split; [reflexivity | lia].
    + apply StronglySorted_inv in Hsorted. destruct Hsorted as [_ Hall].
      rewrite Forall_forall in Hall. apply Hall, list_elem_of_In, Hrest.
  - unfold memory_of, fetch_mutations. cbn.
    destruct (bool_decide (state (node current) = InProgress));
      repeat split.
Qed.

Lemma fetch_challenges_current_witness :
  exists current,
    In current
      (fetched (default [] (addressAChallenges sample_response))
         (default [] (addressBChallenges sample_response))) /\
    is_active current = true /\
    (forall c',
       In c' (fetched (default [] (addressAChallenges sample_response))
                (default [] (addressBChallenges sample_response))) ->
       is_active c' = true -> active_order current c') /\
    activeChallenge
      (memory_of (run sample_world (fetch_challenges sample_fetch)
                    (initial_state "0xabc")))
    = duel_id (node current) /\
    challengeState
      (memory_of (run sample_world (fetch_challenges sample_fetch)
                    (initial_state "0xabc")))
    = Some (state (node current)) /\
    duelistId
      (memory_of (run sample_world (fetch_challenges sample_fetch)
                    (initial_state "0xabc")))
    = (if bool_decide (state (node current) = InProgress)
       then duelist_id_a (node current)
       else duelistId (initial_state "0xabc")).
Proof.
  apply (fetch_challenges_current sample_world sample_fetch
           (initial_state "0xabc") _ _
           (with_duelist_id
              (sample_node "1" "0xabc" "0xdef" "7" "" Awaiting 50) "7")).
  - reflexivity.
  - left. reflexivity.
  - reflexivity.
Defined.

(** ** get_duel_cards *)

Section DuelCardsFacts.
Context (parseInt16 : string -> option Z).

(** The inner loop consumes a prefix of the entries and pushes the values
    of that prefix that parse. *)
Lemma read_cards_split cardCount i rest :
  exists consumed,
    rest = consumed ++ (read_cards parseInt16 cardCount i rest).2 /\
    (read_cards parseInt16 cardCount i rest).1 = omap parseInt16 consumed.
Proof.
  revert i. induction rest as [| s rest IH]; intros i; cbn.
  - exists []. split; reflexivity.
  - destruct (i <? cardCount).
    + destruct (IH (i + 1)) as [consumed [Hrest Hcards]].
      destruct (read_cards parseInt16 cardCount (i + 1) rest) as [cards rest''].
      cbn in *. exists (s :: consumed). split; [now rewrite Hrest at 1 |].
      cbn. destruct (parseInt16 s); now rewrite Hcards.
    + exists []. split; reflexivity.
Qed.

(** On a group that holds as many parsable values as announced the inner
    loop reads exactly the group. *)
Lemma read_cards_exact values cards i rest :
  Forall2 (fun s v => parseInt16 s = Some v) values cards ->
  read_cards parseInt16 (i + Z.of_nat (List.length cards)) i (values ++ rest)
  = (cards, rest).
Proof.
  intros H. revert i. induction H as [| s v values cards Hs Hrest IH]; intros i.
  - cbn. rewrite Z.add_0_r. destruct rest as [| s rest]; [reflexivity |].
    cbn. now rewrite Z.ltb_irrefl.
  - cbn [app List.length read_cards].
    assert ((i <? i + Z.of_nat (S (List.length cards))) = true) as ->
      by (apply Z.ltb_lt; lia).
    replace (i + Z.of_nat (S (List.length cards)))
      with (i + 1 + Z.of_nat (List.length cards)) by lia.
    now rewrite IH, Hs.
Qed.

Lemma process_card_types_group cardType types processedDeck entries cards rest :
  card_group parseInt16 entries cards ->
  process_card_types parseInt16 (cardType :: types) processedDeck
    (entries ++ rest)
  = process_card_types parseInt16 types
      (set_cards cardType cards processedDeck) rest.
Proof.
  destruct entries as [| count values]; [intros [] |].
  intros [Hcount Hvalues]. cbn. rewrite Hcount.
  pose proof (read_cards_exact values cards 0 rest Hvalues) as Hread.
  rewrite Z.add_0_l in Hread. now rewrite Hread.
Qed.

Lemma cards_of_set_cards_other t t' cards processedDeck :
  t <> t' ->
  cards_of t (set_cards t' cards processedDeck) = cards_of t processedDeck.
Proof. destruct t, t'; intros H; try reflexivity; contradiction. Qed.

Lemma cards_of_set_cards t cards processedDeck :
  cards_of t (set_cards t cards processedDeck) = cards.
Proof. destruct t; reflexivity. Qed.

(** A card type that is not processed keeps its cards. *)
Lemma process_card_types_frame t types processedDeck rest :
  ~ In t types ->
  cards_of t (process_card_types parseInt16 types processedDeck rest)
  = cards_of t processedDeck.
Proof.
  revert processedDeck rest.
  induction types as [| t' types IH]; intros processedDeck rest Hnot;
    [reflexivity |].
  assert (t <> t') as Hne by (intros ->; apply Hnot; left; reflexivity).
  assert (~ In t types) as Hnot' by (intros H; apply Hnot; right; exact H).
  cbn. destruct rest as [| s rest]; [reflexivity |].
  destruct (parseInt16 s) as [cardCount |]; [| now apply IH].
  destruct (read_cards parseInt16 cardCount 0 rest) as [cards rest''].
  rewrite (IH _ _ Hnot'). now apply cards_of_set_cards_other.
Qed.

Lemma flat_map_cards_nil types processedDeck :
  (forall t, In t types -> cards_of t processedDeck = []) ->
  flat_map (fun t => cards_of t processedDeck) types = [].
Proof.
  induction types as [| t types IH]; intros Hempty; [reflexivity |].
  cbn. rewrite (Hempty t (or_introl eq_refl)). cbn.
  apply IH. intros t' Ht'. apply Hempty. right. exact Ht'.
Qed.

(** The cards of the processed types, type after type, are a subsequence of
    the values that parse in the entries. *)
Lemma process_card_types_sublist types processedDeck rest :
  List.NoDup types ->
  (forall t, In t types -> cards_of t processedDeck = []) ->
  flat_map
    (fun t => cards_of t (process_card_types parseInt16 types processedDeck rest))
    types
  `sublist_of` omap parseInt16 rest.
Proof.
  revert processedDeck rest.
  induction types as [| t types IH]; intros processedDeck rest Hnodup Hempty.
  - apply sublist_nil_l.
  - inversion Hnodup as [| ? ? Hnot Hnodup']; subst.
    destruct rest as [| s rest].
    + cbn [process_card_types]. rewrite (flat_map_cards_nil _ _ Hempty).
      constructor.
    + cbn [flat_map process_card_types]. cbn [omap list_omap].
      destruct (parseInt16 s) as [cardCount |] eqn:Hs.
      * destruct (read_cards_split cardCount 0 rest)
          as [consumed [Hrest Hcards]].
        destruct (read_cards parseInt16 cardCount 0 rest) as [cards rest''].
        cbn in Hrest, Hcards. subst cards.
        rewrite (process_card_types_frame t types _ _ Hnot).
        rewrite cards_of_set_cards.
        apply sublist_cons.
        rewrite Hrest, omap_app.
        apply sublist_app; [reflexivity |].
        apply IH; [exact Hnodup' |].
        intros t' Ht'. rewrite cards_of_set_cards_other.
        -- apply Hempty. right. exact Ht'.
        -- intros ->. contradiction.
      * rewrite (process_card_types_frame t types _ _ Hnot).
        rewrite (Hempty t (or_introl eq_refl)). cbn [app].
        apply IH; [exact Hnodup' |].
        intros t' Ht'. apply Hempty. right. exact Ht'.
Qed.

End DuelCardsFacts.

Lemma omap_length_le {A B : Type} (f : A -> option B) (l : list A) :
  (List.length (omap f l) <= List.length l)%nat.
Proof.
  induction l as [| x l IH]; cbn; [lia |].
  destruct (f x); cbn; lia.
Qed.

(** The run of get_duel_cards, case by case on the answer of the chain. *)
Lemma get_duel_cards_run parseInt16 sdk w call st :
  run w (get_duel_cards parseInt16 sdk call) st =
  match chain w (deck_request sdk call) with
  | WriteRejected e =>
      ([EvWrite (deck_request sdk call)], st,
       inr (Failure e "Failed to get duel cards"))
  | WriteResolved r =>
      let processedDeck := process_deck parseInt16 (first_event_data r) in
      ([EvWrite (deck_request sdk call)], st,
       inr (Success "Successfully retrieved duel cards"
              {| DeckPayload.deck := processedDeck;
                 DeckPayload.availableMoves :=
                   {| shoot_count := List.length (shoot processedDeck);
                      dodge_count := List.length (dodge processedDeck);
                      tactics_count := List.length (tactics processedDeck);
                      blades_count := List.length (blades processedDeck) |} |}))
  end.
Proof.
  unfold get_duel_cards, deck_request. cbn.
  destruct (chain w _) as [e | r]; reflexivity.
Qed.

(** X18: decoding the layout of a deck.  When the data of the first event
    are three header values followed by four groups, each a count and that
    many card values that [parseInt] reads, for shoot, dodge, tactics and
    blades in this order, get_duel_cards returns exactly these four lists of
    cards with their four lengths; whatever follows the fourth group is
    ignored. *)
Theorem get_duel_cards_layout
    (parseInt16 : string -> option Z) (sdk : Sdk) (w : World)
    (call : DeckCall.t) (st : PistolsState) (r : TxResponse)
    (header shootEntries dodgeEntries tacticEntries bladeEntries rest
       : list string)
    (shootCards dodgeCards tacticCards bladeCards : list Z) :
  chain w (deck_request sdk call) = WriteResolved r ->
  first_event_data r
  = Some (header ++ shootEntries ++ dodgeEntries ++ tacticEntries
            ++ bladeEntries ++ rest) ->
  List.length header = 3%nat ->
  card_group parseInt16 shootEntries shootCards ->
  card_group parseInt16 dodgeEntries dodgeCards ->
  card_group parseInt16 tacticEntries tacticCards ->
  card_group parseInt16 bladeEntries bladeCards ->
  value_of (run w (get_duel_cards parseInt16 sdk call) st)
  = inr (Success "Successfully retrieved duel cards"
           {| DeckPayload.deck :=
                {| shoot := shootCards; dodge := dodgeCards;
                   tactics := tacticCards; blades := bladeCards |};
              DeckPayload.availableMoves :=
                {| shoot_count := List.length shootCards;
                   dodge_count := List.length dodgeCards;
                   tactics_count := List.length tacticCards;
                   blades_count := List.length bladeCards |} |}).
Proof.
  intros Hr Hdata Hheader Hs Hd Ht Hb.
  rewrite get_duel_cards_run, Hr. cbn zeta. rewrite Hdata.
  assert (process_deck parseInt16
            (Some (header ++ shootEntries ++ dodgeEntries ++ tacticEntries
                     ++ bladeEntries ++ rest))
          = {| shoot := shootCards; dodge := dodgeCards;
               tactics := tacticCards; blades := bladeCards |}) as ->.
  { destruct header as [| h1 [| h2 [| h3 [| h4 header]]]]; try discriminate.
    unfold process_deck, CARD_TYPES_values. cbn [app drop]. rewrite drop_0.
    rewrite (process_card_types_group parseInt16 SHOOT _ _ _ _ _ Hs).
    rewrite (process_card_types_group parseInt16 DODGE _ _ _ _ _ Hd).
    rewrite (process_card_types_group parseInt16 TACTIC _ _ _ _ _ Ht).
    rewrite (process_card_types_group parseInt16 BLADE _ _ _ _ _ Hb).
    reflexivity. }
  reflexivity.
Qed.

Lemma get_duel_cards_layout_witness :
  value_of (run deck_world
              (get_duel_cards demo_parseInt16 demo_sdk
                 {| DeckCall.duelId := "7" |})
              (initial_state "0xabc"))
  = inr (Success "Successfully retrieved duel cards"
           {| DeckPayload.deck :=
                {| shoot := [1; 10]; dodge := [3; 7];
                   tactics := [5]; blades := [1; 2; 4] |};
              DeckPayload.availableMoves :=
                {| shoot_count := 2; dodge_count := 2;
                   tactics_count := 1; blades_count := 3 |} |}).
Proof.
  apply (get_duel_cards_layout demo_parseInt16 demo_sdk deck_world
           {| DeckCall.duelId := "7" |} (initial_state "0xabc")
           {| events := Some [ {| data := Some sample_deck_data |} ] |}
           ["0x1"; "0x23"; "0x4"]
           ["0x2"; "0x1"; "0xa"] ["0x2"; "0x3"; "0x7"] ["0x1"; "0x5"]
           ["0x3"; "0x1"; "0x2"; "0x4"] []
           [1; 10] [3; 7] [5] [1; 2; 4]);
    first [ reflexivity
          | split; [reflexivity | repeat constructor] ].
Defined.

(** X19: get_duel_cards invents nothing and reads nothing twice: the cards
    it returns, shoot then dodge then tactics then blades, are a subsequence
    of the values that [parseInt] reads in the data of the first event after
    the three header values.  In particular there are at most as many cards
    as entries after the header, and none when the data are missing or hold
    the header only. *)
Theorem get_duel_cards_subsequence
    (parseInt16 : string -> option Z) (sdk : Sdk) (w : World)
    (call : DeckCall.t) (st : PistolsState) (r : TxResponse) :
  chain w (deck_request sdk call) = WriteResolved r ->
  exists payload,
    value_of (run w (get_duel_cards parseInt16 sdk call) st)
    = inr (Success "Successfully retrieved duel cards" payload) /\
    all_cards (DeckPayload.deck payload)
    `sublist_of` omap parseInt16 (drop 3 (default [] (first_event_data r))) /\
    (List.length (all_cards (DeckPayload.deck payload))
     <= List.length (default [] (first_event_data r)) - 3)%nat.
Proof.
  intros Hr. rewrite get_duel_cards_run, Hr. cbn zeta.
  eexists. split; [reflexivity |]. cbn [DeckPayload.deck].
  assert (all_cards (process_deck parseInt16 (first_event_data r))
          `sublist_of`
          omap parseInt16 (drop 3 (default [] (first_event_data r)))) as Hsub.
  { destruct (first_event_data r) as [deckData |]; cbn [default process_deck].
    - pose proof (process_card_types_sublist parseInt16 CARD_TYPES_values
                    empty_deck (drop 3 deckData)) as H.
      cbn [flat_map CARD_TYPES_values cards_of] in H.
      rewrite app_nil_r in H. apply H.
      + repeat constructor; cbn; intuition discriminate.
      + intros t _. destruct t; reflexivity.
    - apply sublist_nil_l. }
  split; [exact Hsub |].
  apply sublist_length in Hsub.
  etransitivity; [exact Hsub |].
  etransitivity; [apply omap_length_le |]. now rewrite length_drop.
Qed.

Lemma get_duel_cards_subsequence_witness :
  exists payload,
    value_of (run deck_world
                (get_duel_cards demo_parseInt16 demo_sdk
                   {| DeckCall.duelId := "7" |})
                (initial_state "0xabc"))
    = inr (Success "Successfully retrieved duel cards" payload) /\
    all_cards (DeckPayload.deck payload)
    `sublist_of` omap demo_parseInt16 (drop 3 sample_deck_data) /\
    (List.length (all_cards (DeckPayload.deck payload))
     <= List.length sample_deck_data - 3)%nat.
Proof.
  apply (get_duel_cards_subsequence demo_parseInt16 demo_sdk deck_world
           {| DeckCall.duelId := "7" |} (initial_state "0xabc")
           {| events := Some [ {| data := Some sample_deck_data |} ] |}).
  reflexivity.
Defined.

(** X20: get_duel_cards is read-only and tolerant: for every answer of the
    chain it submits exactly one write, the deck query of the duel, and
    leaves the memory unchanged; it fails only when the chain rejects that
    write, and succeeds on every resolved answer, whatever data it carries. *)
Theorem get_duel_cards_read_only
    (parseInt16 : string -> option Z) (sdk : Sdk) (w : World)
    (call : DeckCall.t) (st : PistolsState) :
  let out := run w (get_duel_cards parseInt16 sdk call) st in
  memory_of out = st /\
  trace_of out
  = [EvWrite {| contractAddress := game_contract_address sdk;
                entrypoint := "get_duel_deck";
                calldata := [ArgStr (DeckCall.duelId call)] |}] /\
  match chain w (deck_request sdk call) with
  | WriteRejected e =>
      value_of out = inr (Failure e "Failed to get duel cards")
  | WriteResolved r =>
      exists payload,
        value_of out
        = inr (Success "Successfully retrieved duel cards" payload)
  end.
Proof.
  intros out. subst out. rewrite get_duel_cards_run.
  destruct (chain w _) as [e | r]; cbn; repeat split. eexists. reflexivity.
Qed.

(** ** analyze_duel_history: the rounds *)

Lemma Map_get_In {V : Type} (entries : list (option string * V)) key v :
  Map_get entries key = Some v -> In (key, v) entries.
Proof.
  induction entries as [| [k v'] entries IH]; cbn; [discriminate |].
  destruct (Map_get entries key) as [v'' |].
  - intros [= ->]. right. now apply IH.
  - destruct (bool_decide_reflect (k = key)) as [-> | Hne]; [| discriminate].
    intros [= ->]. now left.
Qed.

Lemma Map_has_elem_of {V : Type} (entries : list (option string * V)) key :
  Map_has entries key = bool_decide (key ∈ map fst entries).
Proof.
  unfold Map_has. induction entries as [| [k v] entries IH]; cbn.
  - symmetry. apply bool_decide_eq_false_2, not_elem_of_nil.
  - destruct (Map_get entries key) as [v' |]; symmetry in IH.
    + apply bool_decide_eq_true_1 in IH. symmetry.
      apply bool_decide_eq_true_2, elem_of_cons. now right.
    + apply bool_decide_eq_false_1 in IH.
      destruct (bool_decide_reflect (k = key)) as [-> | Hne]; symmetry.
      * apply bool_decide_eq_true_2, elem_of_cons. now left.
      * apply bool_decide_eq_false_2. intros [-> | H]%elem_of_cons; auto.
Qed.

Lemma round_result_sides duelInfo round :
  sides_of round (round_result duelInfo round).
Proof.
  unfold sides_of, round_result. cbn.
  destruct (isPlayerA duelInfo); repeat split; [left | right];
    repeat split.
Qed.

Lemma map_rounds_filtered duelMap rounds :
  Forall (fun round =>
            Map_has duelMap (Some (RoundData.duel_id round)) = true) rounds ->
  exists results,
    map_rounds duelMap rounds = inr results /\
    Forall2
      (fun round r =>
         exists duelInfo,
           Map_get duelMap (Some (RoundData.duel_id round)) = Some duelInfo /\
           r = round_result duelInfo round)
      rounds results.
Proof.
  induction 1 as [| round rounds Hhas _ IH]; cbn.
  - exists []. split; [reflexivity | constructor].
  - destruct IH as [results [-> Hall]].
    unfold Map_has in Hhas.
    destruct (Map_get duelMap (Some (RoundData.duel_id round)))
      as [duelInfo |] eqn:E; [| discriminate].
    eexists. split; [reflexivity |].
    constructor; [| exact Hall]. now exists duelInfo.
Qed.

(** X21: the processing of the rounds never throws its "No duel info found"
    error.  It keeps, in order, exactly the rounds whose duel id is the id of
    one of the fetched challenges; each kept round gives one result that
    pairs the two sides of the round (moves and state of the player from one
    side, of the opponent from the other) and carries the outcome computed
    for a fetched challenge with that duel id. *)
Theorem ourRounds_kept
    (callAddress : string) (challengesResult : ChallengesResponse)
    (rounds : list RoundData.t) :
  exists results,
    ourRounds callAddress challengesResult rounds = inr results /\
    Forall2
      (fun round r =>
         sides_of round r /\
         exists c,
           In c (default [] (addressAChallenges challengesResult)
                   ++ default [] (addressBChallenges challengesResult)) /\
           duel_id c = Some (RoundData.duel_id round) /\
           DuelResult.result r
           = result (duel_info (normalizeStarknetAddress callAddress) c))
      (List.filter
         (fun round =>
            bool_decide
              (Some (RoundData.duel_id round) ∈ our_duel_ids challengesResult))
         rounds)
      results.
Proof.
  unfold ourRounds.
  assert (map fst (duelMap_entries callAddress challengesResult)
          = our_duel_ids challengesResult) as Hids.
  { unfold duelMap_entries, our_duel_ids. rewrite map_map. reflexivity. }
  rewrite (filter_ext _
             (fun round =>
                bool_decide
                  (Some (RoundData.duel_id round)
                   ∈ our_duel_ids challengesResult))).
  2: { intros round. now rewrite Map_has_elem_of, Hids. }
  destruct (map_rounds_filtered
              (duelMap_entries callAddress challengesResult)
              (List.filter
                 (fun round =>
                    bool_decide
                      (Some (RoundData.duel_id round)
                       ∈ our_duel_ids challengesResult))
                 rounds)) as [results [Hok Hall]].
  { eapply Forall_impl; [apply filter_Forall_true |].
    intros round H. cbn in H. now rewrite Map_has_elem_of, Hids. }
  exists results. split; [exact Hok |].
  eapply Forall2_impl; [exact Hall |].
  intros round r [duelInfo [Hget ->]]. split; [apply round_result_sides |].
  apply Map_get_In in Hget. unfold duelMap_entries in Hget.
  apply in_map_iff in Hget. destruct Hget as [c [[= Hid <-] Hc]].
  exists c. repeat split; assumption.
Qed.

(** ** get_available_duelists: the target and the busy duelists *)

Lemma other_players_In ourAddress player_addresses address :
  In address (other_players ourAddress player_addresses) <->
  In address (map normalizeStarknetAddress player_addresses) /\
  address <> ourAddress.
Proof.
  unfold other_players. rewrite filter_In, negb_true_iff, bool_decide_eq_false.
  reflexivity.
Qed.

Lemma js_index_In {A : Type} (l : list A) i x : js_index l i = Some x -> In x l.
Proof.
  unfold js_index. destruct (i <? 0); [discriminate |].
  intros H. apply list_elem_of_In. eapply list_elem_of_lookup_2, H.
Qed.

(** X22: the agent never targets itself.  Whatever target the caller asks
    for (none, an unknown address, or the agent's own address in any
    spelling) and whatever the random pick, the target chosen among the other
    players is the normal form of an address of the API and differs from the
    agent's own normalized address. *)
Theorem choose_target_never_self
    (ourAddress : string) (player_addresses : list string)
    (targetAddress : option string) (pick : Z) (target : string) :
  choose_target
    (other_players (normalizeStarknetAddress ourAddress) player_addresses)
    targetAddress pick
  = Some target ->
  target <> normalizeStarknetAddress ourAddress /\
  In target
    (other_players (normalizeStarknetAddress ourAddress) player_addresses).
Proof.
  unfold choose_target.
  set (others :=
         other_players (normalizeStarknetAddress ourAddress) player_addresses).
  assert (forall a, In a others ->
                    a <> normalizeStarknetAddress ourAddress /\ In a others)
    as Hgood.
  { intros a Ha. split; [| exact Ha]. now apply other_players_In in Ha. }
  destruct (negb (truthy targetAddress)
            || negb (bool_decide
                       (normalizeStarknetAddress (default "" targetAddress)
                        ∈ others))) eqn:Hcase.
  - destruct (js_index others pick) as [a |] eqn:Hpick; [| discriminate].
    destruct (negb (truthy (Some a))); [discriminate |].
    intros [= <-]. cbn [default].
    apply js_index_In in Hpick.
    assert (normalizeStarknetAddress a = a) as ->.
    { apply other_players_In in Hpick. destruct Hpick as [Hmap _].
      apply in_map_iff in Hmap. destruct Hmap as [raw [<- _]].
      apply normalize_normalize. }
    now apply Hgood.
  - apply orb_false_iff in Hcase. destruct Hcase as [Ht Hin].
    rewrite Ht. intros [= <-].
    apply negb_false_iff, bool_decide_eq_true in Hin.
    apply Hgood, list_elem_of_In, Hin.
Qed.

Lemma choose_target_never_self_witness :
  "0xdef" <> normalizeStarknetAddress "0x0ABC" /\
  In "0xdef"
    (other_players (normalizeStarknetAddress "0x0ABC")
       ["0x00abc"; "0x0DEF"; "0xABC"]).
Proof.
  apply (choose_target_never_self "0x0ABC" ["0x00abc"; "0x0DEF"; "0xABC"]
           (Some "0xabc") 0 "0xdef").
  reflexivity.
Defined.

(** X23: the duelists offered are exactly the alive, active duelists of the
    answer that stand on neither side of a challenge of the in-progress
    query. *)
Theorem availableDuelists_spec
    (challenges : list (string * string)) (duelists : list DuelistData.t)
    (duelist : DuelistData.t) :
  In duelist (availableDuelists (busy_set challenges) duelists) <->
  In duelist duelists /\
  DuelistData.is_alive duelist = true /\
  DuelistData.is_inactive duelist = false /\
  forall a b, In (a, b) challenges ->
              DuelistData.duelist_id duelist <> a /\
              DuelistData.duelist_id duelist <> b.
Proof.
  unfold availableDuelists.
  rewrite filter_In, !andb_true_iff, !negb_true_iff, bool_decide_eq_false.
  assert (DuelistData.duelist_id duelist ∈ busy_set challenges <->
          exists a b, In (a, b) challenges /\
                      (DuelistData.duelist_id duelist = a \/
                       DuelistData.duelist_id duelist = b)) as Hbusy.
  { rewrite list_elem_of_In. unfold busy_set. rewrite in_flat_map. split.
    - intros [[a b] [Hin [<- | [<- | []]]]]; exists a, b; auto.
    - intros [a [b [Hin [-> | ->]]]]; exists (a, b); cbn; auto. }
  rewrite Hbusy. split.
  - intros [Hin [[Halive Hact] Hnot]].
    split; [exact Hin |]. split; [exact Halive |]. split; [exact Hact |].
    intros a b Hab. split; intros Heq; apply Hnot; exists a, b; auto.
  - intros [Hin [Halive [Hact Hfree]]].
    split; [exact Hin |]. split; [split; assumption |].
    intros [a [b [Hab Heq]]]. destruct (Hfree a b Hab) as [Ha Hb].
    destruct Heq; contradiction.
Qed.

(** ** Across the actions *)

(** X24: an action that reports failure has changed nothing: whenever
    commit_moves, reveal_moves, accept_challenge, create_challenge,
    fetch_challenges or get_duel_cards returns its failure result, the
    memory after the run is the memory before it. *)
Theorem failed_action_changes_nothing
    (parseInt16 : string -> option Z) (sdk : Sdk) (w : World)
    (st : PistolsState) :
  (forall call error message,
     value_of (run w (commit_moves sdk call) st) = inr (Failure error message) ->
     memory_of (run w (commit_moves sdk call) st) = st) /\
  (forall call error message,
     value_of (run w (reveal_moves sdk call) st) = inr (Failure error message) ->
     memory_of (run w (reveal_moves sdk call) st) = st) /\
  (forall call error message,
     value_of (run w (accept_challenge sdk call) st)
     = inr (Failure error message) ->
     memory_of (run w (accept_challenge sdk call) st) = st) /\
  (forall call error message,
     value_of (run w (create_challenge sdk call) st)
     = inr (Failure error message) ->
     memory_of (run w (create_challenge sdk call) st) = st) /\
  (forall call error message,
     value_of (run w (fetch_challenges call) st) = inr (Failure error message) ->
     memory_of (run w (fetch_challenges call) st) = st) /\
  (forall call error message,
     value_of (run w (get_duel_cards parseInt16 sdk call) st)
     = inr (Failure error message) ->
     memory_of (run w (get_duel_cards parseInt16 sdk call) st) = st).
Proof.
  repeat split; intros call error message.
  - rewrite commit_moves_run.
    destruct (chain w _) as [e | r]; [reflexivity |].
    destruct (has_events r); [discriminate | reflexivity].
  - rewrite reveal_moves_run. cbn zeta.
    destruct (js_truthy _); [| reflexivity].
    destruct (hex_of _ _) as [e | saltHex]; [reflexivity |].
    destruct (chain w _) as [e | r]; [reflexivity |].
    destruct (has_events r); [discriminate | reflexivity].
  - rewrite accept_challenge_run.
    destruct (chain w _) as [e | r]; [reflexivity | discriminate].
  - rewrite create_challenge_run.
    destruct (chain w _) as [e | r]; [reflexivity | discriminate].
  - rewrite fetch_challenges_run. cbn zeta.
    destruct (api w _) as [e | [[nodesA |] [nodesB |]]];
      first [reflexivity | discriminate].
  - rewrite get_duel_cards_run.
    destruct (chain w _) as [e | r]; [reflexivity | discriminate].
Qed.

Lemma failed_action_changes_nothing_witness :
  memory_of (run (rejecting_world 0) (commit_moves demo_sdk second_commit)
               committed_state)
  = committed_state /\
  memory_of (run silent_world (reveal_moves demo_sdk reveal_7) committed_state)
  = committed_state.
Proof.
  split.
  - apply (proj1 (failed_action_changes_nothing demo_parseInt16 demo_sdk
                    (rejecting_world 0) committed_state)
             second_commit "Transaction reverted" "Failed to commit moves").
    reflexivity.
  - apply (proj1 (proj2 (failed_action_changes_nothing demo_parseInt16
                           demo_sdk silent_world committed_state))
             reveal_7 "Reveal transaction did not emit events"
             "Failed to reveal moves").
    reflexivity.
Defined.

(** X25: no action writes twice.  In one run commit_moves, accept_challenge,
    create_challenge and get_duel_cards submit exactly one chain write,
    reveal_moves at most one, and fetch_challenges none: nothing is retried
    or resubmitted, whatever the chain answers. *)
Theorem one_write_per_action
    (parseInt16 : string -> option Z) (sdk : Sdk) (w : World)
    (st : PistolsState) :
  (forall call,
     List.length (writes_of (trace_of (run w (commit_moves sdk call) st)))
     = 1%nat) /\
  (forall call,
     (List.length (writes_of (trace_of (run w (reveal_moves sdk call) st)))
      <= 1)%nat) /\
  (forall call,
     List.length (writes_of (trace_of (run w (accept_challenge sdk call) st)))
     = 1%nat) /\
  (forall call,
     List.length (writes_of (trace_of (run w (create_challenge sdk call) st)))
     = 1%nat) /\
  (forall call,
     writes_of (trace_of (run w (fetch_challenges call) st)) = []) /\
  (forall call,
     List.length
       (writes_of (trace_of (run w (get_duel_cards parseInt16 sdk call) st)))
     = 1%nat).
Proof.
  repeat split; intros call.
  - rewrite commit_moves_run.
    destruct (chain w _) as [e | r]; [reflexivity |].
    destruct (has_events r); reflexivity.
  - rewrite reveal_moves_run. cbn zeta.
    destruct (js_truthy _); [| cbn; lia].
    destruct (hex_of _ _) as [e | saltHex]; [cbn; lia |].
    destruct (chain w _) as [e | r]; [cbn; lia |].
    destruct (has_events r); cbn; lia.
  - rewrite accept_challenge_run.
    destruct (chain w _) as [e | r]; reflexivity.
  - rewrite create_challenge_run.
    destruct (chain w _) as [e | r]; reflexivity.
  - rewrite fetch_challenges_run. cbn zeta.
    destruct (api w _) as [e | [[nodesA |] [nodesB |]]]; try reflexivity.
    unfold trace_of, writes_of. cbn.
    induction (fetch_mutations (active_subset nodesA nodesB)) as [| m l IH];
      [reflexivity | exact IH].
  - rewrite get_duel_cards_run.
    destruct (chain w _) as [e | r]; reflexivity.
Qed.

(** X26: the secret store belongs to commit_moves and reveal_moves:
    fetch_challenges, accept_challenge, create_challenge and get_duel_cards
    leave every committed move set as it is, whatever the outside world
    answers. *)
Theorem secrets_untouched_by_other_actions
    (parseInt16 : string -> option Z) (sdk : Sdk) (w : World)
    (st : PistolsState) :
  (forall call,
     committedMoves (memory_of (run w (fetch_challenges call) st))
     = committedMoves st) /\
  (forall call,
     committedMoves (memory_of (run w (accept_challenge sdk call) st))
     = committedMoves st) /\
  (forall call,
     committedMoves (memory_of (run w (create_challenge sdk call) st))
     = committedMoves st) /\
  (forall call,
     committedMoves
       (memory_of (run w (get_duel_cards parseInt16 sdk call) st))
     = committedMoves st).
Proof.
  repeat split; intros call.
  - rewrite fetch_challenges_run. cbn zeta.
    destruct (api w _) as [e | [[nodesA |] [nodesB |]]]; try reflexivity.
    unfold memory_of. cbn.
    destruct (active_subset nodesA nodesB) as [| c l]; [reflexivity |].
    unfold fetch_mutations.
    destruct (bool_decide (state (node c) = InProgress)); reflexivity.
  - rewrite accept_challenge_run.
    destruct (chain w _) as [e | r]; reflexivity.
  - rewrite create_challenge_run.
    destruct (chain w _) as [e | r]; reflexivity.
  - rewrite get_duel_cards_run.
    destruct (chain w _) as [e | r]; reflexivity.
Qed.

(** ** The secret store as an object *)

(** X27: where the missing-secret guard does fire.  For a duel id that is no
    own property of the store, is not [__proto__] and is not the name of a
    member of [Object.prototype], in a store whose prototype was never
    replaced, reveal_moves fails with the missing-secret error, submits
    nothing and changes nothing. *)
Theorem reveal_moves_nothing_found
    (sdk : Sdk) (w : World) (call : RevealCall.t) (st : PistolsState) :
  own (committedMoves st) !! RevealCall.duelId call = None ->
  proto (committedMoves st) = None ->
  RevealCall.duelId call <> "__proto__" ->
  RevealCall.duelId call ∉ Object_prototype_keys ->
  run w (reveal_moves sdk call) st
  = ([], st,
     inr (Failure "No committed moves found for this duel"
            "Failed to reveal moves")).
Proof.
  intros Hown Hproto Hkey Hmember. apply reveal_moves_run_missing.
  unfold js_get, inherited, from_Object_prototype.
  rewrite Hown, Hproto, (bool_decide_eq_false_2 _ Hkey),
    (bool_decide_eq_false_2 _ Hmember).
  reflexivity.
Qed.

Lemma reveal_moves_nothing_found_witness :
  run (confirming_world 0) (reveal_moves demo_sdk reveal_7)
    (initial_state "0xabc")
  = ([], initial_state "0xabc",
     inr (Failure "No committed moves found for this duel"
            "Failed to reveal moves")).
Proof.
  apply (reveal_moves_nothing_found demo_sdk (confirming_world 0) reveal_7
           (initial_state "0xabc")).
  - reflexivity.
  - reflexivity.
  - discriminate.
  - unfold Object_prototype_keys. rewrite !elem_of_cons, elem_of_nil.
    intros H.
    repeat (destruct H as [H | H]; [discriminate H |]). exact H.
Defined.

(** X28: a secret committed under the duel id [__proto__] becomes the
    prototype of the store, not one of its own properties: it is read back
    under that id, its fields show through the keys [salt], [moves] and
    [hash] that are not own properties, and a confirmed reveal_moves for
    that id, whose [delete] finds no own property, leaves it in place. *)
Theorem commit_moves_proto_key
    (sdk : Sdk) (w1 w2 : World) (commit : CommitCall.t) (reveal : RevealCall.t)
    (st : PistolsState) :
  CommitCall.duelId commit = "__proto__" ->
  RevealCall.duelId reveal = "__proto__" ->
  own (committedMoves st) !! "__proto__" = None ->
  confirms w1 (commit_request sdk w1 commit) = true ->
  let committed := memory_of (run w1 (commit_moves sdk commit) st) in
  let secret := commit_secret sdk w1 commit in
  own (committedMoves committed) = own (committedMoves st) /\
  proto (committedMoves committed) = Some secret /\
  committedMoves committed !! "__proto__" = Some secret /\
  (own (committedMoves st) !! "salt" = None ->
   js_get (committedMoves committed) "salt" = JsBigInt (rand w1 0xFFFFFFFF)) /\
  (own (committedMoves st) !! "moves" = None ->
   js_get (committedMoves committed) "moves"
   = JsArray (CommitCall.moves commit)) /\
  committedMoves (memory_of (run w2 (reveal_moves sdk reveal) committed))
  = committedMoves committed.
Proof.
  intros Hcommit Hreveal Hown Hc committed secret.
  pose proof (commit_moves_confirmed_store sdk w1 commit st Hc) as Hm.
  fold committed secret in Hm. rewrite Hcommit in Hm.
  assert (committedMoves committed
          = {| own := own (committedMoves st); proto := Some secret |}) as Heq.
  { rewrite Hm. unfold insert, SecretStore_insert, js_set.
    rewrite Hown. reflexivity. }
  clearbody committed.
  split; [now rewrite Heq |]. split; [now rewrite Heq |].
  split; [| split; [| split]].
  - rewrite Hm. apply store_lookup_insert_eq.
  - intros Hsalt. rewrite Heq. unfold js_get. cbn. rewrite Hsalt.
    subst secret. reflexivity.
  - intros Hmoves. rewrite Heq. unfold js_get. cbn. rewrite Hmoves.
    subst secret. reflexivity.
  - rewrite reveal_moves_run. cbn zeta.
    destruct (js_truthy _); [| reflexivity].
    destruct (hex_of _ _) as [e | saltHex]; [reflexivity |].
    destruct (chain w2 _) as [e | r]; [reflexivity |].
    destruct (has_events r); [| reflexivity].
    cbn. rewrite Hreveal. apply js_delete_absent. now rewrite Heq.
Qed.

Lemma commit_moves_proto_key_witness :
  committedMoves
    (memory_of (run (confirming_world 0) (reveal_moves demo_sdk proto_reveal)
                  (memory_of (run (confirming_world 111)
                                (commit_moves demo_sdk proto_commit)
                                (initial_state "0xabc")))))
    !! "__proto__"
  = Some {| salt := 111; moves := [3; 7; 1; 2];
            hash := make_moves_hash demo_sdk 111 [3; 7; 1; 2] |}.
Proof.
  pose proof (commit_moves_proto_key demo_sdk (confirming_world 111)
                (confirming_world 0) proto_commit proto_reveal
                (initial_state "0xabc") eq_refl eq_refl eq_refl eq_refl)
    as [_ [_ [Hread [_ [_ Hkept]]]]].
  rewrite Hkept. exact Hread.
Defined.
